(** * A gravitational two-body simulation: the physics core of [main.cpp]

    The program keeps a vector of [Object]s (Earth and Moon).  On every
    frame of its render loop it walks over the bodies; for each one it
    accumulates the gravitational pull of every other body, integrates the
    position, draws the body, reflects it at the screen boundary and runs
    the pairwise collision response.

    All quantities of the program are C++ [float]s.  They are modelled as
    IEEE-754 binary32 numbers through the standard library's [SpecFloat]
    (precision 24, maximal exponent 128), each operation rounded on its own
    to nearest-even, as a compiler that evaluates [float] expressions in
    single precision does. *)

From Stdlib Require Import ZArith Bool List Lia.
From Stdlib Require Import Floats.SpecFloat.
From stdpp Require Import base list.

Local Open Scope Z_scope.

(** ** Binary32 arithmetic *)

Module F32.

Definition prec : Z := 24.
Definition emax : Z := 128.

Definition float : Type := spec_float.

Definition add : float -> float -> float := SFadd prec emax.
Definition sub : float -> float -> float := SFsub prec emax.
Definition mul : float -> float -> float := SFmul prec emax.
Definition div : float -> float -> float := SFdiv prec emax.
Definition sqrt : float -> float := SFsqrt prec emax.
Definition opp : float -> float := SFopp.
Definition ltb : float -> float -> bool := SFltb.

(** [valid x]: [x] is a genuine binary32 datum (a finite number carries its
    canonical mantissa and exponent). *)
Definition valid (x : float) : bool := valid_binary prec emax x.

Definition is_zero (x : float) : bool :=
  match x with S754_zero _ => true | _ => false end.

Definition is_finite (x : float) : bool :=
  match x with S754_zero _ | S754_finite _ _ _ => true | _ => false end.

(** Strictly positive numbers, [+inf] included: those with [0 < x]. *)
Definition positive_float (x : float) : Prop :=
  match x with
  | S754_finite false _ _ | S754_infinity false => True
  | _ => False
  end.

(** [same_number x y]: equal data, or two zeros (which compare equal
    whatever their signs). *)
Definition same_number (x y : float) : Prop :=
  x = y \/ (is_zero x = true /\ is_zero y = true).

(** [above K s x]: [x] is not zero, has sign [s], and when it is finite
    its magnitude is at least [2^(K-1)]: mantissa digits plus exponent
    reach [K]. *)
Definition above (K : Z) (s : bool) (x : float) : Prop :=
  match x with
  | S754_finite s' m e => s' = s /\ K <= Z.pos (digits2_pos m) + e
  | S754_infinity s' => s' = s
  | _ => False
  end.

(** [rounded x]: a finite [x] has an exponent of the format, at least the
    minimal exponent -149. *)
Definition rounded (x : float) : Prop :=
  match x with
  | S754_finite _ _ e => -149 <= e
  | _ => True
  end.

(** The value of an integer literal, rounded to binary32. *)
Definition of_Z (n : Z) : float := binary_normalize prec emax n 0 false.

(** The decimal literal [n / 10^k], rounded to binary32: the quotient of
    the two integers is computed exactly and rounded once. *)
Definition of_decimal (n : positive) (k : positive) : float :=
  SFdiv prec emax (S754_finite false n 0) (S754_finite false (10 ^ k)%positive 0).

(** [nearest_to x n d]: the positive normal number [x = m * 2^e] lies
    within half a unit in the last place of the rational [n / d], that
    is [2 * |m * 2^e * d - n| <= 2^e * d], with the power of two moved to
    the other side when [e] is negative. *)
Definition nearest_to (x : float) (n d : Z) : bool :=
  match x with
  | S754_finite false m e =>
      let a := 2 ^ Z.max 0 e in
      let b := 2 ^ Z.max 0 (- e) in
      valid x && (Z.pos (digits2_pos m) =? prec) &&
      (2 * Z.abs (Z.pos m * a * d - n * b) <=? a * d)
  | _ => false
  end.

End F32.

Import F32.

Declare Scope f32_scope.
Delimit Scope f32_scope with f32.
Bind Scope f32_scope with float.
Infix "+" := add : f32_scope.
Infix "-" := sub : f32_scope.
Infix "*" := mul : f32_scope.
Infix "/" := div : f32_scope.
Infix "<?" := ltb : f32_scope.
Notation "- x" := (opp x) : f32_scope.

#[global] Instance spec_float_eq_dec : EqDecision spec_float.
Proof. solve_decision. Defined.

(** ** The literals of [main.cpp] *)

Module Lit.
Definition zero : float := S754_zero false.             (* 0.0f *)
Definition one : float := of_Z 1.                       (* 1.0f *)
Definition minus_one : float := of_Z (-1).              (* -1.0f *)
Definition space_scale : float := of_decimal 1 9.       (* 1.0e-9f *)
Definition time_scale : float := of_Z 50000.            (* 50000.0f *)
Definition grav : float := of_decimal 6674 14.          (* 6.674e-11f *)
Definition earth_radius : float := of_decimal 1 1.      (* 0.1f *)
Definition earth_mass : float := of_Z (597 * 10 ^ 22).  (* 5.97e24f *)
Definition earth_realRadius : float := of_Z 6371000.    (* 6371000.0f *)
Definition moon_x : float := of_decimal 384 3.          (* 0.384f *)
Definition moon_vy : float := of_Z 1022.                (* 1022.0f *)
Definition moon_radius : float := of_decimal 5 2.       (* 0.05f *)
Definition moon_mass : float := of_Z (735 * 10 ^ 20).   (* 7.35e22f *)
Definition moon_realRadius : float := of_Z 1737000.     (* 1737000.0f *)
Definition seconds_per_day : float := of_Z 86400.       (* 86400.0f *)
End Lit.

(** ** The data model: [class Object] *)

(** [std::vector<float>] as the program uses it: every vector it builds has
    two elements, read and written as [v[0]] and [v[1]]. *)
Record vec2 : Type := Vec2 { at0 : float; at1 : float }.

Record Object : Type := mkObject {
  position : vec2;      (* stored in simulation space *)
  velocity : vec2;      (* stored in m/s *)
  radius : float;       (* visual radius on screen *)
  mass : float;         (* mass in kg *)
  realRadius : float    (* actual radius in meters *)
}.

Definition set_position (p : vec2) (o : Object) : Object :=
  mkObject p (velocity o) (radius o) (mass o) (realRadius o).

Definition set_velocity (v : vec2) (o : Object) : Object :=
  mkObject (position o) v (radius o) (mass o) (realRadius o).

Definition valid_vec (v : vec2) : bool := valid (at0 v) && valid (at1 v).

Definition opp_vec (v : vec2) : vec2 := Vec2 (- at0 v)%f32 (- at1 v)%f32.

(** What a frame does with the bodies, as seen from outside the vector:
    the method calls it makes, in order. *)
Inductive call : Type :=
  | CallAccelerate (i j : nat) (x y : float)
  | CallUpdatePosition (i : nat)
  | CallDrawCircle (i : nat) (centerX centerY r : float) (res : Z)
  | CallCheckCollision (i j : nat).

#[global] Instance call_eq_dec : EqDecision call.
Proof. solve_decision. Defined.

(** The body vector together with the calls made so far. *)
Record world : Type := World { objs : list Object; calls : list call }.

(** The state of the render loop: the global [objs] and the local
    [simulationTime] of [main]. *)
Record sim : Type := Sim { bodies : list Object; simulationTime : float }.

Section Simulation.

(** The two global scale factors and the gravitational constant: read,
    never written, by the loop. *)
Variables SPACE_SCALE TIME_SCALE G : float.

(** *** Methods of [Object] *)

Definition accelerate (this : Object) (x y : float) : Object :=
  set_velocity
    (Vec2 (at0 (velocity this) + x * TIME_SCALE)%f32
          (at1 (velocity this) + y * TIME_SCALE)%f32) this.

(** The displacement [v * TIME_SCALE * SPACE_SCALE] of one component. *)
Definition displacement (v : float) : float :=
  (v * TIME_SCALE * SPACE_SCALE)%f32.

Definition updatePosition (this : Object) : Object :=
  set_position
    (Vec2 (at0 (position this) + displacement (at0 (velocity this)))%f32
          (at1 (position this) + displacement (at1 (velocity this)))%f32) this.

(** The distance computed from [this] to [other], in simulation space. *)
Definition distance (this other : Object) : float :=
  let dx := (at0 (position other) - at0 (position this))%f32 in
  let dy := (at1 (position other) - at1 (position this))%f32 in
  sqrt (dx * dx + dy * dy)%f32.

(** The test of [CheckCollision]: [other.radius + this->radius > distance]. *)
Definition collides (this other : Object) : bool :=
  (distance this other <? radius other + radius this)%f32.

(** [v *= -1.0f] on both components.  ([other]'s components are scaled by
    the [double] constant [-1.0]; the product with -1 is exact in either
    format, so converting it back to [float] returns the same number.) *)
Definition reverse (v : vec2) : vec2 :=
  Vec2 (at0 v * Lit.minus_one)%f32 (at1 v * Lit.minus_one)%f32.

Definition CheckCollision (this other : Object) : Object * Object :=
  if collides this other
  then (set_velocity (reverse (velocity this)) this,
        set_velocity (reverse (velocity other)) other)
  else (this, other).

(** *** The force computation of one ordered pair (the inner loop body) *)

Definition distanceSim (obj obj2 : Object) : float := distance obj obj2.

Definition distanceReal (obj obj2 : Object) : float :=
  (distanceSim obj obj2 / SPACE_SCALE)%f32.

(** The minimum-separation test that makes the loop [continue]. *)
Definition too_close (obj obj2 : Object) : bool :=
  (distanceReal obj obj2 <? realRadius obj + realRadius obj2)%f32.

Definition direction (obj obj2 : Object) : vec2 :=
  let dx := (at0 (position obj2) - at0 (position obj))%f32 in
  let dy := (at1 (position obj2) - at1 (position obj))%f32 in
  Vec2 (dx / distanceSim obj obj2)%f32 (dy / distanceSim obj obj2)%f32.

Definition force (obj obj2 : Object) : float :=
  (G * mass obj * mass obj2 / (distanceReal obj obj2 * distanceReal obj obj2))%f32.

Definition acceleration (obj obj2 : Object) : float :=
  (force obj obj2 / mass obj)%f32.

(** The arguments passed to [obj.accelerate], or [None] when the pair is
    skipped. *)
Definition pull (obj obj2 : Object) : option (float * float) :=
  if too_close obj obj2 then None
  else Some ((acceleration obj obj2 * at0 (direction obj obj2))%f32,
             (acceleration obj obj2 * at1 (direction obj obj2))%f32).

(** One iteration of [for (Object &obj2 : objs)] for the body at index
    [i]: [obj] and [obj2] are references into the vector, and the only
    write goes through [obj]. *)
Definition force_step (i : nat) (w : world) (j : nat) : world :=
  if decide (j = i) then w
  else match objs w !! i, objs w !! j with
       | Some obj, Some obj2 =>
           match pull obj obj2 with
           | None => w
           | Some (x, y) =>
               World (<[i := accelerate obj x y]> (objs w))
                     (calls w ++ [CallAccelerate i j x y])
           end
       | _, _ => w
       end.

Definition force_loop (i : nat) (w : world) : world :=
  foldl (force_step i) w (seq 0 (length (objs w))).

(** *** Integration and drawing *)

Definition integrate (i : nat) (w : world) : world :=
  match objs w !! i with
  | Some obj =>
      World (<[i := updatePosition obj]> (objs w))
            (calls w ++ [CallUpdatePosition i])
  | None => w
  end.

Definition draw (i : nat) (w : world) : world :=
  match objs w !! i with
  | Some obj =>
      World (objs w)
            (calls w ++ [CallDrawCircle i (at0 (position obj))
                           (at1 (position obj)) (radius obj) 50])
  | None => w
  end.

(** *** Screen boundaries *)

(** The tests of the two edges of axis 1, and of axis 0. *)
Definition below1 (obj : Object) : bool :=
  (at1 (position obj) - radius obj <? Lit.minus_one)%f32.

Definition beyond1 (obj : Object) : bool :=
  (Lit.one <? at1 (position obj) + radius obj)%f32.

Definition below0 (obj : Object) : bool :=
  (at0 (position obj) - radius obj <? Lit.minus_one)%f32.

Definition beyond0 (obj : Object) : bool :=
  (Lit.one <? at0 (position obj) + radius obj)%f32.

Definition boundary1 (obj : Object) : Object :=
  if below1 obj then
    mkObject (Vec2 (at0 (position obj)) (Lit.minus_one + radius obj)%f32)
             (Vec2 (at0 (velocity obj)) (- at1 (velocity obj))%f32)
             (radius obj) (mass obj) (realRadius obj)
  else if beyond1 obj then
    mkObject (Vec2 (at0 (position obj)) (Lit.one - radius obj)%f32)
             (Vec2 (at0 (velocity obj)) (- at1 (velocity obj))%f32)
             (radius obj) (mass obj) (realRadius obj)
  else obj.

Definition boundary0 (obj : Object) : Object :=
  if below0 obj then
    mkObject (Vec2 (Lit.minus_one + radius obj)%f32 (at1 (position obj)))
             (Vec2 (- at0 (velocity obj))%f32 (at1 (velocity obj)))
             (radius obj) (mass obj) (realRadius obj)
  else if beyond0 obj then
    mkObject (Vec2 (Lit.one - radius obj)%f32 (at1 (position obj)))
             (Vec2 (- at0 (velocity obj))%f32 (at1 (velocity obj)))
             (radius obj) (mass obj) (realRadius obj)
  else obj.

(** Axis 1 is handled first, then axis 0. *)
Definition boundary (obj : Object) : Object := boundary0 (boundary1 obj).

Definition clamp (i : nat) (w : world) : world :=
  match objs w !! i with
  | Some obj => World (<[i := boundary obj]> (objs w)) (calls w)
  | None => w
  end.

(** *** Collisions of the body at index [i] with every other body *)

Definition collision_step (i : nat) (w : world) (j : nat) : world :=
  if decide (i = j) then w
  else match objs w !! i, objs w !! j with
       | Some obj, Some other =>
           let '(obj', other') := CheckCollision obj other in
           World (<[j := other']> (<[i := obj']> (objs w)))
                 (calls w ++ [CallCheckCollision i j])
       | _, _ => w
       end.

Definition collision_loop (i : nat) (w : world) : world :=
  foldl (collision_step i) w (seq 0 (length (objs w))).

(** *** One iteration of [for (Object &obj : objs)], and the whole loop *)

Definition body (w : world) (i : nat) : world :=
  collision_loop i (clamp i (draw i (integrate i (force_loop i w)))).

Definition tick_world (w : world) : world :=
  foldl body w (seq 0 (length (objs w))).

(** The bodies after one frame, and the calls the frame made. *)
Definition tick (os : list Object) : list Object :=
  objs (tick_world (World os [])).

Definition tick_calls (os : list Object) : list call :=
  calls (tick_world (World os [])).

(** *** The render loop *)

(** One iteration of [while (!glfwWindowShouldClose(window))]. *)
Definition frame (s : sim) : sim :=
  Sim (tick (bodies s)) (simulationTime s + TIME_SCALE)%f32.

(** The elapsed time a frame prints, in days. *)
Definition printed_days (s : sim) : float :=
  ((simulationTime s + TIME_SCALE) / Lit.seconds_per_day)%f32.

(** The state after [n] more frames.  Whether another frame follows is
    decided outside the program (the window's close flag), so a run may
    stop after any number of frames. *)
Fixpoint frames (n : nat) (s : sim) : sim :=
  match n with
  | O => s
  | S n' => frames n' (frame s)
  end.

End Simulation.


(** ** The program's own bodies and constants *)

Module EarthMoon.
Definition SPACE_SCALE : float := Lit.space_scale.
Definition TIME_SCALE : float := Lit.time_scale.
Definition G : float := Lit.grav.

Definition Earth : Object :=
  mkObject (Vec2 Lit.zero Lit.zero) (Vec2 Lit.zero Lit.zero)
           Lit.earth_radius Lit.earth_mass Lit.earth_realRadius.

Definition Moon : Object :=
  mkObject (Vec2 Lit.moon_x Lit.zero) (Vec2 Lit.zero Lit.moon_vy)
           Lit.moon_radius Lit.moon_mass Lit.moon_realRadius.

Definition objs : list Object := [Earth; Moon].

(** The state in which [main] enters its loop. *)
Definition start : sim := Sim objs Lit.zero.

End EarthMoon.

(** The first frame of the program, step by step: the world after the
    Earth's iteration, and after the force loop of the Moon's iteration;
    the Earth and the Moon in them; the arguments of the two [accelerate]
    calls; the Moon at the end of the frame. *)
Module FirstFrame.

Definition after_earth : world :=
  body EarthMoon.SPACE_SCALE EarthMoon.TIME_SCALE EarthMoon.G
    (World EarthMoon.objs []) 0.

Definition moon_accelerated : world :=
  force_loop EarthMoon.SPACE_SCALE EarthMoon.TIME_SCALE EarthMoon.G 1 after_earth.

Definition moved_earth : Object := nth 0 (objs after_earth) EarthMoon.Earth.

Definition accelerated_moon : Object :=
  nth 1 (objs moon_accelerated) EarthMoon.Moon.

Definition earth_pull : float * float :=
  default (Lit.zero, Lit.zero)
    (pull EarthMoon.SPACE_SCALE EarthMoon.G EarthMoon.Earth EarthMoon.Moon).

Definition moon_pull : float * float :=
  default (Lit.zero, Lit.zero)
    (pull EarthMoon.SPACE_SCALE EarthMoon.G EarthMoon.Moon moved_earth).

Definition moon1 : Object :=
  nth 1 (tick EarthMoon.SPACE_SCALE EarthMoon.TIME_SCALE EarthMoon.G EarthMoon.objs)
    EarthMoon.Moon.

Definition calls_expected : list call :=
  [CallAccelerate 0 1 (fst earth_pull) (snd earth_pull);
   CallUpdatePosition 0;
   CallDrawCircle 0 (at0 (position moved_earth)) (at1 (position moved_earth))
     (radius EarthMoon.Earth) 50;
   CallCheckCollision 0 1;
   CallAccelerate 1 0 (fst moon_pull) (snd moon_pull);
   CallUpdatePosition 1;
   CallDrawCircle 1 (at0 (position moon1)) (at1 (position moon1))
     (radius EarthMoon.Moon) 50;
   CallCheckCollision 1 0].
End FirstFrame.

(** ** Notions used to state the properties *)

(** The number of [CheckCollision] calls made on the ordered pair
    [(i, j)], and on the unordered pair of [i] and [j]. *)
Definition checks_of (i j : nat) (cs : list call) : nat :=
  length (filter (fun c => c = CallCheckCollision i j) cs).

Definition tests_between (i j : nat) (cs : list call) : nat :=
  (checks_of i j cs + checks_of j i cs)%nat.

(** What the collision test reads of a body. *)
Definition place (o : Object) : vec2 * float := (position o, radius o).

(** What the minimum-separation test reads of a body. *)
Definition anchor (o : Object) : vec2 * float := (position o, realRadius o).

(** The minimum-separation test between the bodies at two indices. *)
Definition too_close_at (SS : float) (os : list Object) (i j : nat) : bool :=
  match os !! i, os !! j with
  | Some a, Some b => too_close SS a b
  | _, _ => false
  end.

(** The collision test between the bodies at two indices. *)
Definition collides_at (os : list Object) (i j : nat) : bool :=
  match os !! i, os !! j with
  | Some a, Some b => collides a b
  | _, _ => false
  end.

(** The indices, among [js], of the bodies that overlap the body at [i]. *)
Definition overlapping_among (os : list Object) (i : nat) (js : list nat) : list nat :=
  filter (fun j => i <> j /\ collides_at os i j = true) js.

Definition overlapping (os : list Object) (i : nat) : list nat :=
  overlapping_among os i (seq 0 (length os)).

(** [extends n i j w w']: from [w] to [w'] the number of bodies is kept and
    [n] more [CheckCollision] calls were made on the ordered pair. *)
Definition extends (n : nat) (i j : nat) (w w' : world) : Prop :=
  length (objs w') = length (objs w) /\
  checks_of i j (calls w') = (checks_of i j (calls w) + n)%nat.

(** The number of [CheckCollision] calls on the ordered pair [(a, b)] that
    one collision step at [(i, j)] makes, with [n] bodies. *)
Definition step_checks (n : nat) (a b i j : nat) : nat :=
  if decide (a = i /\ b = j /\ i <> j /\ (i < n)%nat /\ (j < n)%nat)
  then 1%nat else 0%nat.

(** A body none of whose four boundary tests fires. *)
Definition inside (o : Object) : bool :=
  negb (below1 o) && negb (beyond1 o) && negb (below0 o) && negb (beyond0 o).

(** ** Bodies used as examples *)

Module Examples.

(** A body with the mass of Mars (6.39e23 kg) where the Moon starts. *)
Definition Mars : Object :=
  mkObject (Vec2 Lit.moon_x Lit.zero) (Vec2 Lit.zero Lit.moon_vy)
           Lit.moon_radius (of_Z (639 * 10 ^ 21)) Lit.moon_realRadius.

(** A disc of radius 2, wider than the screen, at the origin. *)
Definition wide : Object :=
  mkObject (Vec2 Lit.zero Lit.zero) (Vec2 Lit.one Lit.one)
           (of_Z 2) Lit.moon_mass Lit.moon_realRadius.

(** A body beyond the upper right corner of the screen. *)
Definition corner : Object :=
  mkObject (Vec2 (of_Z 2) (of_Z 2)) (Vec2 Lit.one Lit.one)
           Lit.earth_radius Lit.moon_mass Lit.moon_realRadius.

(** A body at rest in the middle of the right half of the screen. *)
Definition resting : Object :=
  mkObject (Vec2 Lit.moon_x Lit.zero) (Vec2 Lit.zero Lit.zero)
           Lit.moon_radius Lit.moon_mass Lit.moon_realRadius.

(** A second Earth, a hundredth of a screen unit (ten thousand kilometres)
    to the right of the first: the two discs overlap, and so do the two
    planets. *)
Definition Earth2 : Object :=
  mkObject (Vec2 (of_decimal 1 2) Lit.zero) (Vec2 Lit.zero Lit.moon_vy)
           Lit.earth_radius Lit.earth_mass Lit.earth_realRadius.

(** A third one, as far to the left. *)
Definition Earth3 : Object :=
  mkObject (Vec2 (- of_decimal 1 2)%f32 Lit.zero) (Vec2 Lit.moon_vy Lit.zero)
           Lit.earth_radius Lit.earth_mass Lit.earth_realRadius.

End Examples.

(** ** The Euclidean test in exact arithmetic *)

(** Every finite binary32 number is a whole multiple of [2^-149], the
    smallest positive one; [units x] is that multiple, so that sums,
    differences and products of [units] are the exact sums, differences
    and products of the numbers (in units of [2^-149] and [2^-298]). *)
Definition units (x : float) : Z :=
  match x with
  | S754_finite s m e =>
      (if s then -1 else 1) * Z.shiftl (Z.pos m) (e + 149)
  | _ => 0
  end.

(** A body whose position and display radius are numbers. *)
Definition finite_place (o : Object) : bool :=
  valid_vec (position o) && is_finite (at0 (position o)) &&
  is_finite (at1 (position o)) && valid (radius o) && is_finite (radius o).

(** The Euclidean distance between the two positions is strictly less
    than the sum of the two display radii, without any rounding.  The
    distance is not negative, so this holds when the sum is positive and
    the square of the distance is below the square of the sum. *)
Definition euclidean_overlap (this other : Object) : bool :=
  let dx := units (at0 (position other)) - units (at0 (position this)) in
  let dy := units (at1 (position other)) - units (at1 (position this)) in
  let rr := units (radius other) + units (radius this) in
  (0 <? rr) && (dx * dx + dy * dy <? rr * rr).

Module Discs.

(** Two discs that do not meet: the centres are 16700030 * 2^-26 apart
    (a 3-4-5 triangle) and the radii add up to 16700029.5 * 2^-26. *)
Definition A : Object :=
  mkObject (Vec2 Lit.zero Lit.zero) (Vec2 Lit.one Lit.zero)
           (S754_finite false 16700030 (-27)) Lit.one Lit.one.

Definition B : Object :=
  mkObject (Vec2 (S754_finite false 10020018 (-26))
                 (S754_finite false 13360024 (-26)))
           (Vec2 Lit.zero Lit.one)
           (S754_finite false 16700029 (-27)) Lit.one Lit.one.

(** Two discs that overlap: the centres are 0.5 apart and the radii,
    0.25 and 0.25 + 2^-25, add up to 0.5 + 2^-25. *)
Definition C : Object :=
  mkObject (Vec2 Lit.zero Lit.zero) (Vec2 Lit.one Lit.zero)
           (S754_finite false 8388608 (-25)) Lit.one Lit.one.

Definition D : Object :=
  mkObject (Vec2 (S754_finite false 8388608 (-24)) Lit.zero)
           (Vec2 Lit.zero Lit.one)
           (S754_finite false 8388609 (-25)) Lit.one Lit.one.

End Discs.

(** ** [DrawCircle] *)

(** The [double] arithmetic that [DrawCircle] uses for the angle: binary64,
    with the exact conversion from [float] and the rounding conversion
    back. *)
Module F64.

Definition prec : Z := 53.
Definition emax : Z := 1024.

Definition double : Type := spec_float.

Definition mul : double -> double -> double := SFmul prec emax.

(** [float] to [double]: every binary32 number is a binary64 number. *)
Definition of_float (x : float) : double :=
  match x with
  | S754_finite s m e => binary_round prec emax s m e
  | _ => x
  end.

(** [double] to [float], rounding to nearest-even. *)
Definition to_float (x : double) : float :=
  match x with
  | S754_finite s m e => binary_round F32.prec F32.emax s m e
  | _ => x
  end.

(** [M_PI], the platform's [3.14159265358979323846], as a [double]. *)
Definition M_PI : double :=
  SFdiv prec emax (S754_finite false 314159265358979323846 0)
                  (S754_finite false (10 ^ 20)%positive 0).

End F64.

(** The OpenGL commands that [DrawCircle] issues. *)
Inductive gl_call : Type :=
  | GlBeginTriangleFan
  | GlVertex2f (x y : float)
  | GlEnd.

Section Drawing.

(** [cos] and [sin] on [float], of the C++ library. *)
Variables cos sin : float -> float.

(** [2.0f * M_PI * (static_cast<float>(i) / res)]: the quotient is a
    [float] division ([res] is converted to [float]), the two products
    are [double] products, and the result is stored in a [float]. *)
Definition angle (res i : Z) : float :=
  F64.to_float
    (F64.mul (F64.mul (F64.of_float (of_Z 2)) F64.M_PI)
             (F64.of_float (of_Z i / of_Z res)%f32)).

(** The vertex of the loop iteration [i]. *)
Definition rim_vertex (centerX centerY r : float) (res i : Z) : gl_call :=
  GlVertex2f (centerX + cos (angle res i) * r)%f32
             (centerY + sin (angle res i) * r)%f32.

(** The range of [int]. *)
Definition INT_MIN : Z := - 2 ^ 31.
Definition INT_MAX : Z := 2 ^ 31 - 1.

(** [DrawCircle(centerX, centerY, radius, res)].  The loop
    [for (int i = 0; i <= res; ++i)] runs for [i = 0, ..., res] and stops
    at [i = res + 1], which exists as an [int] when [res] is below
    [INT_MAX].  For [res = INT_MAX] the test [i <= res] never fails and
    [++i] overflows: the call does not reach [glEnd] and has no defined
    result, which is [None]. *)
Definition DrawCircle (centerX centerY r : float) (res : Z)
    : option (list gl_call) :=
  if decide (INT_MIN <= res < INT_MAX)
  then Some ([GlBeginTriangleFan; GlVertex2f centerX centerY]
             ++ (rim_vertex centerX centerY r res <$> seqZ 0 (res + 1))
             ++ [GlEnd])
  else None.

End Drawing.

(** ** [StartGLFW] and [main] *)

(** What the window system answers: whether [glfwInit] succeeds, the
    window [glfwCreateWindow] returns (if any), whether the GLAD loader
    succeeds, and after how many frames the window is closed. *)
Record platform : Type := Platform {
  init_ok : bool;
  created : option nat;
  glad_ok : bool;
  frames_shown : nat
}.

(** The three error messages: "Failed to init GLFW", "Failed to create
    GLFW window" and "Failed to initialize GLAD". *)
Inductive failure : Type := FailedInit | FailedWindow | FailedGLAD.

(** What is written to [std::cout]: the greeting, or the elapsed days. *)
Inductive output : Type := Greeting | SimulationTime (days : float).

(** What the program does to the outside, in order.  [Bodies cs] stands
    for the body loop of a frame that makes the calls [cs], each
    [CallDrawCircle] being [glColor3f] and the commands of [DrawCircle]. *)
Inductive effect : Type :=
  | Cout (o : output)
  | Cerr (m : failure)
  | GlfwInit
  | GlfwCreateWindow (width height : Z)
  | GlfwTerminate
  | GlfwMakeContextCurrent (window : nat)
  | GladLoadGLLoader
  | GlClearColor
  | GlClear
  | Bodies (cs : list call)
  | GlfwSwapBuffers (window : nat)
  | GlfwPollEvents.

#[global] Instance failure_eq_dec : EqDecision failure.
Proof. solve_decision. Defined.

#[global] Instance output_eq_dec : EqDecision output.
Proof. solve_decision. Defined.

#[global] Instance effect_eq_dec : EqDecision effect.
Proof. solve_decision. Defined.

(** [StartGLFW]: the window, or [None] for [nullptr], with its effects.
    The window is 400 by 300. *)
Definition StartGLFW (p : platform) : option nat * list effect :=
  if negb (init_ok p) then (None, [GlfwInit; Cerr FailedInit])
  else match created p with
       | None => (None, [GlfwInit; GlfwCreateWindow 400 300; Cerr FailedWindow; GlfwTerminate])
       | Some window =>
           if negb (glad_ok p)
           then (None, [GlfwInit; GlfwCreateWindow 400 300;
                        GlfwMakeContextCurrent window; GladLoadGLLoader; Cerr FailedGLAD])
           else (Some window, [GlfwInit; GlfwCreateWindow 400 300;
                               GlfwMakeContextCurrent window; GladLoadGLLoader])
       end.

Section Main.

Variables SPACE_SCALE TIME_SCALE G : float.

(** The effects of one iteration of the [while] loop from the state [s]. *)
Definition frame_effects (window : nat) (s : sim) : list effect :=
  [GlClear;
   Cout (SimulationTime (printed_days TIME_SCALE s));
   Bodies (tick_calls SPACE_SCALE TIME_SCALE G (bodies s));
   GlfwSwapBuffers window;
   GlfwPollEvents].

Fixpoint loop_effects (window : nat) (n : nat) (s : sim) : list effect :=
  match n with
  | O => []
  | S n' =>
      frame_effects window s
      ++ loop_effects window n' (frame SPACE_SCALE TIME_SCALE G s)
  end.

(** [main] for a run in which the window is closed after
    [frames_shown p] frames: the exit status, the final state and the
    effects. *)
Definition main (p : platform) (os : list Object) : Z * sim * list effect :=
  match StartGLFW p with
  | (None, es) => (-1, Sim os Lit.zero, Cout Greeting :: es)
  | (Some window, es) =>
      (0,
       frames SPACE_SCALE TIME_SCALE G (frames_shown p) (Sim os Lit.zero),
       Cout Greeting :: es ++ [GlClearColor]
       ++ loop_effects window (frames_shown p) (Sim os Lit.zero)
       ++ [GlfwTerminate])
  end.

End Main.

(** ** Further notions used to state properties *)

(** The fields of a body that no method writes. *)
Definition constants (o : Object) : float * float * float :=
  (radius o, mass o, realRadius o).

(** The magnitudes of the components of a vector. *)
Definition abs_vec (v : vec2) : vec2 := Vec2 (SFabs (at0 v)) (SFabs (at1 v)).

Definition speed (o : Object) : vec2 := abs_vec (velocity o).

Definition is_nan (x : float) : bool :=
  match x with S754_nan => true | _ => false end.

(** The calls of a frame other than [accelerate], without their float
    arguments. *)
Inductive slot : Type :=
  | SlotUpdatePosition (i : nat)
  | SlotDrawCircle (i : nat)
  | SlotCheckCollision (i j : nat).

Definition slot_of (c : call) : option slot :=
  match c with
  | CallAccelerate _ _ _ _ => None
  | CallUpdatePosition i => Some (SlotUpdatePosition i)
  | CallDrawCircle i _ _ _ _ => Some (SlotDrawCircle i)
  | CallCheckCollision i j => Some (SlotCheckCollision i j)
  end.

Definition slots (cs : list call) : list slot := omap slot_of cs.

(** The ordered pairs on which [accelerate] was called. *)
Definition accelerated_pair (c : call) : option (nat * nat) :=
  match c with
  | CallAccelerate i j _ _ => Some (i, j)
  | _ => None
  end.

Definition accelerated_pairs (cs : list call) : list (nat * nat) :=
  omap accelerated_pair cs.

(** The other indices, in order, and the schedule of a frame of [n]
    bodies. *)
Definition others (n i : nat) : list nat := filter (fun j => j <> i) (seq 0 n).

Definition body_slots (n i : nat) : list slot :=
  [SlotUpdatePosition i; SlotDrawCircle i] ++ (SlotCheckCollision i <$> others n i).

Definition tick_slots (n : nat) : list slot := flat_map (body_slots n) (seq 0 n).

Definition body_pairs (n i : nat) : list (nat * nat) := pair i <$> others n i.

Definition all_pairs (n : nat) : list (nat * nat) := flat_map (body_pairs n) (seq 0 n).

(** [advances n sl ps w w']: from a world [w] of [n] bodies to [w'], the
    number of bodies is kept, the calls other than [accelerate] that were
    added are [sl], and [accelerate] was called on a subsequence of [ps]. *)
Definition advances (n : nat) (sl : list slot) (ps : list (nat * nat))
    (w w' : world) : Prop :=
  length (objs w) = n ->
  length (objs w') = n /\
  slots (calls w') = slots (calls w) ++ sl /\
  exists l, accelerated_pairs (calls w') = accelerated_pairs (calls w) ++ l /\
            sublist l ps.

(** A vector with a NaN component. *)
Definition has_nan (v : vec2) : bool := is_nan (at0 v) || is_nan (at1 v).

Definition nan_vec : vec2 := Vec2 S754_nan S754_nan.

(** * Facts about binary32 arithmetic *)

(** ** The literals are the binary32 numbers nearest to their decimals *)

Lemma literals_nearest :
  nearest_to Lit.space_scale 1 (10 ^ 9) = true /\
  nearest_to Lit.time_scale 50000 1 = true /\
  nearest_to Lit.grav 6674 (10 ^ 14) = true /\
  nearest_to Lit.earth_radius 1 10 = true /\
  nearest_to Lit.earth_mass (597 * 10 ^ 22) 1 = true /\
  nearest_to Lit.earth_realRadius 6371000 1 = true /\
  nearest_to Lit.moon_x 384 1000 = true /\
  nearest_to Lit.moon_vy 1022 1 = true /\
  nearest_to Lit.moon_radius 5 100 = true /\
  nearest_to Lit.moon_mass (735 * 10 ^ 20) 1 = true /\
  nearest_to Lit.moon_realRadius 1737000 1 = true /\
  nearest_to Lit.seconds_per_day 86400 1 = true /\
  nearest_to Lit.one 1 1 = true /\
  Lit.minus_one = opp Lit.one.
Proof. vm_compute. repeat split. Qed.

Lemma minus_one_eq : Lit.minus_one = S754_finite true 8388608 (-23).
Proof. reflexivity. Qed.

Lemma space_scale_eq : Lit.space_scale = S754_finite false 9007199 (-53).
Proof. reflexivity. Qed.

(** ** Signs *)

Lemma opp_involutive (x : float) : opp (opp x) = x.
Proof. destruct x as [s|s| |s m e]; cbn; rewrite ?negb_involutive; reflexivity. Qed.

Lemma valid_opp (x : float) : valid (opp x) = valid x.
Proof. destruct x; reflexivity. Qed.

Lemma binary_round_aux_opp s m e l :
  SFopp (binary_round_aux prec emax s m e l) = binary_round_aux prec emax (negb s) m e l.
Proof.
  unfold binary_round_aux.
  destruct (shr_fexp prec emax m e l) as [mrs' e'].
  destruct (shr_fexp prec emax _ e' loc_Exact) as [mrs'' e''].
  destruct (shr_m mrs''); try reflexivity.
  destruct (e'' <=? emax - prec); reflexivity.
Qed.

Lemma binary_round_opp s m e :
  SFopp (binary_round prec emax s m e) = binary_round prec emax (negb s) m e.
Proof.
  unfold binary_round. destruct (shl_align _ _ _) as [mz ez].
  apply binary_round_aux_opp.
Qed.

Lemma binary_normalize_opp z e :
  z <> 0 ->
  binary_normalize prec emax (- z) e false = SFopp (binary_normalize prec emax z e false).
Proof.
  destruct z as [|p|p]; intros Hz; [congruence| |]; cbn [Z.opp binary_normalize];
    rewrite binary_round_opp; reflexivity.
Qed.

(** Subtraction is antisymmetric, except that an exact cancellation gives
    [+0] in both orders. *)
Lemma sub_swap (a b : float) :
  (b - a)%f32 = (- (a - b))%f32 \/ ((a - b)%f32 = Lit.zero /\ (b - a)%f32 = Lit.zero).
Proof.
  unfold sub, opp, Lit.zero.
  destruct a as [sa|sa| |sa ma ea], b as [sb|sb| |sb mb eb];
    try (left; reflexivity);
    try (destruct sa, sb; (left; reflexivity) || (right; split; reflexivity)).
  cbn [SFsub]. rewrite (Z.min_comm eb ea).
  set (X := cond_Zopp sa _). set (Y := cond_Zopp sb _).
  destruct (Z.eq_dec (X - Y) 0) as [H0|H0].
  - right. rewrite H0. replace (Y - X) with 0 by lia. split; reflexivity.
  - left. replace (Y - X) with (- (X - Y)) by lia. apply binary_normalize_opp, H0.
Qed.

Lemma sub_diag (x : float) : is_finite x = true -> (x - x)%f32 = Lit.zero.
Proof.
  unfold sub, Lit.zero. destruct x as [[|]| | |s m e]; try discriminate; try reflexivity.
  intros _. cbn [SFsub]. rewrite Z.sub_diag. reflexivity.
Qed.

Lemma add_comm (a b : float) : (a + b)%f32 = (b + a)%f32.
Proof.
  unfold add.
  destruct a as [sa|sa| |sa ma ea], b as [sb|sb| |sb mb eb];
    try reflexivity; try (destruct sa, sb; reflexivity).
  cbn [SFadd]. rewrite (Z.min_comm eb ea), Z.add_comm. reflexivity.
Qed.

Lemma add_zero_r (x : float) : x <> S754_zero true -> (x + Lit.zero)%f32 = x.
Proof. destruct x as [[|]| | |]; intros H; try reflexivity. congruence. Qed.

Lemma mul_opp_opp (a : float) : (- a * - a)%f32 = (a * a)%f32.
Proof.
  unfold mul, opp.
  destruct a as [s|s| |s m e]; try reflexivity; destruct s; reflexivity.
Qed.

Lemma div_opp_l (a d : float) : (- a / d)%f32 = (- (a / d))%f32.
Proof.
  unfold div, opp.
  destruct a as [sa|sa| |sa ma ea], d as [sb|sb| |sb mb eb];
    try reflexivity; try (destruct sa, sb; reflexivity).
  cbn [SFdiv SFopp]. destruct (SFdiv_core_binary _ _ _ _ _ _) as [[mz ez] lz].
  rewrite binary_round_aux_opp. destruct sa, sb; reflexivity.
Qed.

(** ** Multiplying by -1 changes the sign and nothing else *)

Lemma digits_shift23 m : Z.pos (digits2_pos (8388608 * m)) = Z.pos (digits2_pos m) + 23.
Proof.
  change (8388608 * m)%positive
    with (m~0~0~0~0~0~0~0~0~0~0~0~0~0~0~0~0~0~0~0~0~0~0~0)%positive.
  cbn [digits2_pos]. lia.
Qed.

Lemma mul_minus_one (x : float) :
  valid x = true -> (x * Lit.minus_one)%f32 = (- x)%f32.
Proof.
  unfold valid, mul, opp. rewrite minus_one_eq.
  destruct x as [s|s| |s m e]; try (intros _; try destruct s; reflexivity).
  cbn [valid_binary SFmul SFopp]. unfold bounded, canonical_mantissa.
  intros H. apply andb_prop in H. destruct H as [Hc Hb].
  apply Z.eqb_eq in Hc.
  rewrite xorb_true_r.
  unfold binary_round_aux, shr_fexp.
  rewrite Pos.mul_comm.
  cbn [Zdigits2]. rewrite digits_shift23.
  replace (Z.pos (digits2_pos m) + 23 + (e + -23)) with (Z.pos (digits2_pos m) + e) by lia.
  rewrite Hc.
  replace (e - (e + -23)) with 23 by lia.
  change (8388608 * m)%positive
    with (m~0~0~0~0~0~0~0~0~0~0~0~0~0~0~0~0~0~0~0~0~0~0~0)%positive.
  cbn [shr shr_record_of_loc SpecFloat.iter_pos shr_1 round_nearest_even
       loc_of_shr_record shr_m shr_r shr_s orb].
  replace (e + -23 + 23) with e by lia.
  cbn [Zdigits2]. rewrite Hc. rewrite Z.sub_diag. cbn [shr shr_m].
  rewrite Hb. reflexivity.
Qed.

Lemma reverse_opp (v : vec2) : valid_vec v = true -> reverse v = opp_vec v.
Proof.
  unfold valid_vec, reverse, opp_vec. intros H.
  apply andb_prop in H. destruct H as [H0 H1].
  rewrite !mul_minus_one by assumption. reflexivity.
Qed.

Lemma reverse_reverse (v : vec2) : valid_vec v = true -> reverse (reverse v) = v.
Proof.
  intros H. rewrite (reverse_opp v H).
  rewrite reverse_opp.
  - destruct v as [x y]. unfold opp_vec. cbn [at0 at1]. rewrite !opp_involutive. reflexivity.
  - unfold valid_vec, opp_vec in *. cbn [at0 at1]. rewrite !valid_opp. exact H.
Qed.

(** ** Sizes of mantissas *)

Lemma digits2_pos_bounds p :
  2 ^ (Z.pos (digits2_pos p) - 1) <= Z.pos p < 2 ^ Z.pos (digits2_pos p).
Proof.
  induction p as [p IH|p IH|]; cbn [digits2_pos].
  - rewrite Pos2Z.inj_succ.
    replace (Z.succ (Z.pos (digits2_pos p)) - 1)
      with (Z.succ (Z.pos (digits2_pos p) - 1)) by lia.
    rewrite !Z.pow_succ_r by lia. lia.
  - rewrite Pos2Z.inj_succ.
    replace (Z.succ (Z.pos (digits2_pos p)) - 1)
      with (Z.succ (Z.pos (digits2_pos p) - 1)) by lia.
    rewrite !Z.pow_succ_r by lia. lia.
  - cbn. lia.
Qed.

Lemma Zdigits2_bounds m :
  0 < m -> 2 ^ (Zdigits2 m - 1) <= m < 2 ^ Zdigits2 m.
Proof. destruct m as [|p|p]; try lia. intros _. apply digits2_pos_bounds. Qed.

Lemma Zdigits2_pos m : 0 < m -> 0 < Zdigits2 m.
Proof. destruct m; cbn; lia. Qed.

Lemma Zdigits2_ge m k : 0 <= k -> 2 ^ k <= m -> k + 1 <= Zdigits2 m.
Proof.
  intros Hk Hm.
  assert (0 < m) as Hpos by (pose proof (Z.pow_pos_nonneg 2 k); lia).
  destruct (Zdigits2_bounds m Hpos) as [_ Hu].
  destruct (Z.le_gt_cases (k + 1) (Zdigits2 m)) as [|Hlt]; [assumption|].
  assert (2 ^ Zdigits2 m <= 2 ^ k) by (apply Z.pow_le_mono_r; lia). lia.
Qed.

Lemma Zdigits2_le m k : 0 <= k -> 0 < m -> m < 2 ^ k -> Zdigits2 m <= k.
Proof.
  intros Hk Hpos Hm.
  destruct (Zdigits2_bounds m Hpos) as [Hl _].
  destruct (Z.le_gt_cases (Zdigits2 m) k) as [|Hlt]; [assumption|].
  assert (2 ^ k <= 2 ^ (Zdigits2 m - 1)) by (apply Z.pow_le_mono_r; lia). lia.
Qed.

Lemma Zdigits2_mono a b : 0 < a -> a <= b -> Zdigits2 a <= Zdigits2 b.
Proof.
  intros Ha Hab.
  pose proof (Zdigits2_pos a Ha).
  destruct (Zdigits2_bounds a Ha) as [Hl _].
  pose proof (Zdigits2_ge b (Zdigits2 a - 1)). lia.
Qed.

Lemma Zdigits2_div_pow2 m n :
  0 < m -> 0 <= n < Zdigits2 m ->
  0 < m / 2 ^ n /\ Zdigits2 (m / 2 ^ n) = Zdigits2 m - n.
Proof.
  intros Hm Hn.
  destruct (Zdigits2_bounds m Hm) as [Hl Hu].
  assert (0 < 2 ^ n) as Hp by (apply Z.pow_pos_nonneg; lia).
  assert (2 ^ (Zdigits2 m - 1 - n) <= m / 2 ^ n) as Hlo.
  { apply Z.div_le_lower_bound; [lia|].
    rewrite <- Z.pow_add_r by lia.
    replace (n + (Zdigits2 m - 1 - n)) with (Zdigits2 m - 1) by lia. exact Hl. }
  assert (m / 2 ^ n < 2 ^ (Zdigits2 m - n)) as Hhi.
  { apply Z.div_lt_upper_bound; [lia|].
    rewrite <- Z.pow_add_r by lia.
    replace (n + (Zdigits2 m - n)) with (Zdigits2 m) by lia. exact Hu. }
  assert (0 < 2 ^ (Zdigits2 m - 1 - n)) by (apply Z.pow_pos_nonneg; lia).
  split; [lia|].
  apply Z.le_antisymm.
  - apply Zdigits2_le; lia.
  - pose proof (Zdigits2_ge (m / 2 ^ n) (Zdigits2 m - 1 - n)). lia.
Qed.

Lemma digits2_pos_iter_xO m d :
  Z.pos (digits2_pos (Pos.iter xO m d)) = Z.pos (digits2_pos m) + Z.pos d.
Proof.
  induction d as [|d IH] using Pos.peano_ind.
  - cbn [Pos.iter digits2_pos]. lia.
  - rewrite Pos.iter_succ. cbn [digits2_pos]. lia.
Qed.

(** ** Rounding keeps the magnitude *)

Lemma shr_1_m mrs : 0 <= shr_m mrs -> shr_m (shr_1 mrs) = shr_m mrs / 2.
Proof.
  destruct mrs as [m r s]. cbn [shr_m]. intros Hm.
  destruct m as [|[p|p|]|p]; cbn [shr_1 shr_m]; try lia; try reflexivity.
  - rewrite Pos2Z.inj_xI. apply Z.div_unique with 1; lia.
  - rewrite Pos2Z.inj_xO. apply Z.div_unique with 0; lia.
Qed.

Lemma iter_shr_1_m p : forall mrs,
  0 <= shr_m mrs ->
  shr_m (SpecFloat.iter_pos shr_1 p mrs) = shr_m mrs / 2 ^ Z.pos p.
Proof.
  induction p as [p IH|p IH|]; intros mrs Hm; cbn [SpecFloat.iter_pos].
  - assert (0 <= shr_m (shr_1 mrs)) as H1
      by (rewrite shr_1_m by lia; apply Z.div_pos; lia).
    assert (0 <= shr_m (SpecFloat.iter_pos shr_1 p (shr_1 mrs))) as H2
      by (rewrite IH by lia; apply Z.div_pos; [lia|apply Z.pow_pos_nonneg; lia]).
    rewrite IH, IH, shr_1_m by lia.
    rewrite !Z.div_div by (try apply Z.pow_pos_nonneg; lia).
    f_equal. rewrite (Pos2Z.inj_xI p).
    replace (2 * Z.pos p + 1) with (1 + Z.pos p + Z.pos p) by lia.
    rewrite !Z.pow_add_r by lia. lia.
  - assert (0 <= shr_m (SpecFloat.iter_pos shr_1 p mrs)) as H2
      by (rewrite IH by lia; apply Z.div_pos; [lia|apply Z.pow_pos_nonneg; lia]).
    rewrite IH, IH by lia.
    rewrite !Z.div_div by (try apply Z.pow_pos_nonneg; lia).
    f_equal. rewrite (Pos2Z.inj_xO p).
    replace (2 * Z.pos p) with (Z.pos p + Z.pos p) by lia.
    rewrite !Z.pow_add_r by lia. lia.
  - rewrite shr_1_m by lia. reflexivity.
Qed.

Lemma fexp_ge k : -149 <= fexp prec emax k.
Proof. unfold fexp, emin, prec, emax. lia. Qed.

Lemma shr_record_of_loc_m m l : shr_m (shr_record_of_loc m l) = m.
Proof. destruct l as [|[ | | ]]; reflexivity. Qed.

(** A number of magnitude above the subnormal threshold keeps a non-zero
    mantissa, and its magnitude, when it is shifted to its exponent. *)
Lemma shr_fexp_mag m e l :
  0 < m -> -148 <= Zdigits2 m + e ->
  0 < shr_m (fst (shr_fexp prec emax m e l)) /\
  Zdigits2 (shr_m (fst (shr_fexp prec emax m e l))) + snd (shr_fexp prec emax m e l)
    = Zdigits2 m + e.
Proof.
  intros Hm Hmag. unfold shr_fexp, shr.
  pose proof (Zdigits2_pos m Hm) as Hd.
  destruct (fexp prec emax (Zdigits2 m + e) - e) as [|n|n] eqn:Hn;
    cbn [fst snd]; rewrite ?shr_record_of_loc_m; try (split; [assumption|reflexivity]).
  rewrite iter_shr_1_m by (rewrite shr_record_of_loc_m; lia).
  rewrite shr_record_of_loc_m.
  assert (Z.pos n < Zdigits2 m) as Hlt
    by (unfold fexp, emin, prec, emax in Hn; lia).
  destruct (Zdigits2_div_pow2 m (Z.pos n) Hm) as [Hq Hdq]; [lia|].
  split; [assumption|lia].
Qed.

Lemma round_nearest_even_ge m l : 0 < m -> m <= round_nearest_even m l.
Proof.
  intros Hm. destruct l as [|[ | | ]]; cbn [round_nearest_even]; try lia.
  destruct (Z.even m); lia.
Qed.

Lemma above_weaken K K' s x : K' <= K -> above K s x -> above K' s x.
Proof. destruct x; cbn [above]; intuition lia. Qed.

Lemma above_not_zero K s x : above K s x -> is_zero x = false.
Proof. destruct x; cbn [above is_zero]; tauto. Qed.

Lemma binary_round_aux_above s m e l :
  0 < m -> -148 <= Zdigits2 m + e ->
  above (Zdigits2 m + e) s (binary_round_aux prec emax s m e l).
Proof.
  intros Hm Hmag. unfold binary_round_aux.
  destruct (shr_fexp_mag m e l Hm Hmag) as [H1 H2].
  destruct (shr_fexp prec emax m e l) as [mrs' e']. cbn [fst snd] in H1, H2.
  set (m1 := round_nearest_even (shr_m mrs') (loc_of_shr_record mrs')).
  assert (shr_m mrs' <= m1) as Hm1 by (apply round_nearest_even_ge; assumption).
  assert (Zdigits2 (shr_m mrs') <= Zdigits2 m1) as Hd1 by (apply Zdigits2_mono; lia).
  destruct (shr_fexp_mag m1 e' loc_Exact) as [H3 H4]; [lia|lia|].
  destruct (shr_fexp prec emax m1 e' loc_Exact) as [mrs'' e'']. cbn [fst snd] in H3, H4.
  destruct (shr_m mrs'') as [|p|p]; try lia.
  destruct (e'' <=? emax - prec); cbn [above]; [|reflexivity].
  split; [reflexivity|]. cbn [Zdigits2] in H4. lia.
Qed.

Lemma binary_round_aux_rounded s m e l : rounded (binary_round_aux prec emax s m e l).
Proof.
  unfold binary_round_aux.
  destruct (shr_fexp prec emax m e l) as [mrs' e'].
  set (m1 := round_nearest_even (shr_m mrs') (loc_of_shr_record mrs')).
  clearbody m1. unfold shr_fexp, shr.
  pose proof (fexp_ge (Zdigits2 m1 + e')) as Hf.
  destruct (fexp prec emax (Zdigits2 m1 + e') - e') as [|n|n] eqn:Hn;
    match goal with
    | |- rounded (match shr_m ?r with _ => _ end) => destruct (shr_m r)
    end; cbn [rounded]; try exact I;
    destruct (_ <=? _); cbn [rounded]; (lia || exact I).
Qed.

Lemma binary_round_rounded s m e : rounded (binary_round prec emax s m e).
Proof.
  unfold binary_round. destruct (shl_align _ _ _). apply binary_round_aux_rounded.
Qed.

Lemma shl_align_mag m e e' :
  Z.pos (digits2_pos (fst (shl_align m e e'))) + snd (shl_align m e e')
    = Z.pos (digits2_pos m) + e.
Proof.
  unfold shl_align. destruct (e' - e) as [|p|p] eqn:Hp; cbn [fst snd]; try reflexivity.
  rewrite digits2_pos_iter_xO. lia.
Qed.

Lemma shl_align_snd m e e' : e' <= e -> snd (shl_align m e e') = e'.
Proof.
  intros H. unfold shl_align. destruct (e' - e) as [|p|p] eqn:Hp; cbn [snd]; lia.
Qed.

Lemma binary_round_above s m e :
  -148 <= Z.pos (digits2_pos m) + e ->
  above (Z.pos (digits2_pos m) + e) s (binary_round prec emax s m e).
Proof.
  intros Hmag. unfold binary_round.
  pose proof (shl_align_mag m e (fexp prec emax (Z.pos (digits2_pos m) + e))) as H.
  destruct (shl_align _ _ _) as [mz ez]. cbn [fst snd] in H.
  rewrite <- H.
  apply (binary_round_aux_above s (Z.pos mz) ez loc_Exact); cbn [Zdigits2]; lia.
Qed.

Lemma valid_exponent s m e : valid (S754_finite s m e) = true -> -149 <= e.
Proof.
  unfold valid. cbn [valid_binary]. unfold bounded, canonical_mantissa. intros H.
  apply andb_prop in H. destruct H as [H _]. apply Z.eqb_eq in H.
  pose proof (fexp_ge (Z.pos (digits2_pos m) + e)). lia.
Qed.

(** ** The operations of the force computation *)

Lemma mul_rounded (a b : float) : rounded (a * b)%f32.
Proof.
  unfold mul. destruct a, b; cbn [SFmul rounded]; try exact I.
  apply binary_round_aux_rounded.
Qed.

Lemma add_rounded (a b : float) : rounded a -> rounded b -> rounded (a + b)%f32.
Proof.
  unfold add.
  destruct a as [sa|sa| |sa ma ea], b as [sb|sb| |sb mb eb];
    cbn [SFadd rounded]; intros Ha Hb; try exact I; try assumption;
    try (destruct sa, sb; exact I).
  unfold binary_normalize.
  destruct (_ + _); [exact I|apply binary_round_rounded..].
Qed.

Lemma sqrtrem_pos n : 0 < n -> 0 < fst (Z.sqrtrem n).
Proof.
  intros Hn. pose proof (Z.sqrtrem_spec n ltac:(lia)) as H.
  destruct (Z.sqrtrem n) as [q r]. cbn [fst]. nia.
Qed.

(** The root of a positive number of the format is at least [2^-98]. *)
Lemma sqrt_above m e :
  -149 <= e -> above (-97) false (sqrt (S754_finite false m e)).
Proof.
  intros He. unfold sqrt. cbn [SFsqrt]. unfold SFsqrt_core_binary.
  set (d := Zdigits2 (Z.pos m)).
  set (e' := Z.min (fexp prec emax (Z.div2 (d + e + 1))) (Z.div2 e)).
  assert (0 < d) as Hd by (apply Zdigits2_pos; lia).
  assert (-98 <= e' /\ 0 <= e - 2 * e') as [He' Hs].
  { subst e'. unfold fexp, emin, prec, emax. rewrite !Z.div2_div.
    Z.div_mod_to_equations. lia. }
  set (m' := match e - 2 * e' with
             | Z.pos _ => Z.shiftl (Z.pos m) (e - 2 * e')
             | 0 => Z.pos m
             | Z.neg _ => 0
             end).
  assert (0 < m') as Hm'.
  { subst m'. destruct (e - 2 * e') as [|p|p] eqn:Hp; try lia.
    rewrite Z.shiftl_mul_pow2 by lia.
    pose proof (Z.pow_pos_nonneg 2 (Z.pos p)). nia. }
  pose proof (sqrtrem_pos m' Hm') as Hq.
  destruct (Z.sqrtrem m') as [q r]. cbn [fst] in Hq.
  pose proof (Zdigits2_pos q Hq).
  eapply above_weaken; [|apply binary_round_aux_above]; lia.
Qed.

(** Dividing by the space scale [1e-9] multiplies by about [2^30]. *)
Lemma div_space_scale_above s m e :
  -97 <= Z.pos (digits2_pos m) + e ->
  above (-68) s (S754_finite s m e / Lit.space_scale)%f32.
Proof.
  intros Hmag. unfold div. rewrite space_scale_eq. cbn [SFdiv].
  unfold SFdiv_core_binary.
  rewrite xorb_false_r.
  change (Zdigits2 (Z.pos 9007199)) with 24.
  set (d := Zdigits2 (Z.pos m)).
  assert (d = Z.pos (digits2_pos m)) as Hd by reflexivity.
  set (e' := Z.min (fexp prec emax (d + e - (24 + -53))) (e - -53)).
  assert (e' <= d + e + 5 /\ 0 <= e - -53 - e') as [He' Hs].
  { subst e'. unfold fexp, emin, prec, emax. lia. }
  set (m' := match e - -53 - e' with
             | Z.pos _ => Z.shiftl (Z.pos m) (e - -53 - e')
             | 0 => Z.pos m
             | Z.neg _ => 0
             end).
  assert (m' = Z.pos m * 2 ^ (e - -53 - e')) as Hm'.
  { subst m'. destruct (e - -53 - e') as [|p|p] eqn:Hp; try lia.
    apply Z.shiftl_mul_pow2. lia. }
  assert (2 ^ (d + (e - -53 - e') - 25) <= m' / Z.pos 9007199) as Hq.
  { apply Z.div_le_lower_bound; [lia|].
    destruct (Zdigits2_bounds (Z.pos m) ltac:(lia)) as [Hl _]. fold d in Hl.
    rewrite Hm'.
    replace (d + (e - -53 - e') - 25) with ((d - 1) + (e - -53 - e') - 24) by lia.
    assert (Z.pos 9007199 * 2 ^ (d - 1 + (e - -53 - e') - 24)
            <= 2 ^ 24 * 2 ^ (d - 1 + (e - -53 - e') - 24)) as H1
      by (apply Z.mul_le_mono_nonneg_r; [apply Z.pow_nonneg; lia|cbn; lia]).
    rewrite <- Z.pow_add_r in H1 by lia.
    replace (24 + (d - 1 + (e - -53 - e') - 24))
      with ((d - 1) + (e - -53 - e')) in H1 by lia.
    rewrite Z.pow_add_r in H1 by lia.
    assert (2 ^ (d - 1) * 2 ^ (e - -53 - e') <= Z.pos m * 2 ^ (e - -53 - e'))
      by (apply Z.mul_le_mono_nonneg_r; [apply Z.pow_nonneg; lia|assumption]).
    lia. }
  unfold Z.div in Hq. destruct (Z.div_eucl m' (Z.pos 9007199)) as [q r].
  pose proof (Zdigits2_ge q (d + (e - -53 - e') - 25) ltac:(lia) Hq) as Hdq.
  assert (0 < q) by (pose proof (Z.pow_pos_nonneg 2 (d + (e - -53 - e') - 25)); lia).
  eapply above_weaken; [|apply binary_round_aux_above]; lia.
Qed.

(** The square of a number of magnitude at least [2^-69] does not
    underflow to zero. *)
Lemma mul_self_above s m e :
  -68 <= Z.pos (digits2_pos m) + e ->
  above (-137) false (S754_finite s m e * S754_finite s m e)%f32.
Proof.
  intros Hmag. unfold mul. cbn [SFmul]. rewrite xorb_nilpotent.
  set (d := Z.pos (digits2_pos m)) in *.
  destruct (digits2_pos_bounds m) as [Hl _]. fold d in Hl.
  assert (0 < d) by (subst d; lia).
  assert (2 ^ (2 * d - 2) <= Z.pos (m * m)) as Hsq.
  { rewrite Pos2Z.inj_mul. replace (2 * d - 2) with ((d - 1) + (d - 1)) by lia.
    rewrite Z.pow_add_r by lia.
    pose proof (Z.pow_pos_nonneg 2 (d - 1)). nia. }
  pose proof (Zdigits2_ge (Z.pos (m * m)) (2 * d - 2) ltac:(lia) Hsq) as Hd.
  eapply above_weaken; [|apply binary_round_aux_above]; lia.
Qed.

Lemma ltb_zero_positive (x : float) : (Lit.zero <? x)%f32 = true <-> positive_float x.
Proof. destruct x as [s|[|]| |[|] m e]; cbn; intuition congruence. Qed.

Lemma zero_ltb_positive s (x : float) :
  positive_float x -> (S754_zero s <? x)%f32 = true.
Proof. destruct x as [s'|[|]| |[|] m e]; cbn; intuition congruence. Qed.

(** The sum of two positive numbers of the format is positive: it does
    not underflow. *)
Lemma add_positive (a b : float) :
  valid a = true -> valid b = true ->
  positive_float a -> positive_float b -> positive_float (a + b)%f32.
Proof.
  unfold add.
  destruct a as [sa|[|]| |[|] ma ea], b as [sb|[|]| |[|] mb eb];
    cbn [positive_float]; try tauto.
  intros Va Vb _ _. apply valid_exponent in Va. cbn [SFadd].
  set (ez := Z.min ea eb).
  pose proof (shl_align_mag ma ea ez) as H1.
  rewrite shl_align_snd in H1 by lia.
  set (ma' := fst (shl_align ma ea ez)) in *.
  set (mb' := fst (shl_align mb eb ez)) in *.
  cbn [cond_Zopp]. change (Z.pos ma' + Z.pos mb') with (Z.pos (ma' + mb')).
  cbn [binary_normalize].
  assert (Z.pos (digits2_pos ma') <= Z.pos (digits2_pos (ma' + mb'))) as Hd
    by (apply (Zdigits2_mono (Z.pos ma') (Z.pos (ma' + mb'))); lia).
  pose proof (binary_round_above false (ma' + mb') ez ltac:(lia)) as Hab.
  destruct (binary_round prec emax false (ma' + mb') ez) as [s|[|]| |[|] m e];
    cbn [above positive_float] in *; intuition congruence.
Qed.

(** * Facts about the loop *)

Section LoopFacts.

Variables SS TS G : float.

(** ** Every phase keeps the bodies in place and only appends calls *)

Lemma checks_of_app i j cs cs' :
  checks_of i j (cs ++ cs') = (checks_of i j cs + checks_of i j cs')%nat.
Proof. unfold checks_of. rewrite filter_app, length_app. reflexivity. Qed.

(** Appending a call that is not a [CheckCollision] leaves the count. *)
Ltac other_call :=
  rewrite checks_of_app; cbn; rewrite decide_False by discriminate; reflexivity.

Lemma extends_refl i j w : extends 0 i j w w.
Proof. split; [reflexivity|lia]. Qed.

Lemma extends_trans n n' i j w w' w'' :
  extends n i j w w' -> extends n' i j w' w'' -> extends (n + n') i j w w''.
Proof. intros [H1 H2] [H3 H4]. split; [congruence|lia]. Qed.

Lemma extends_eq n n' a b w w' : n = n' -> extends n a b w w' -> extends n' a b w w'.
Proof. intros ->. trivial. Qed.

Lemma force_step_extends a b i w j : extends 0 a b w (force_step SS TS G i w j).
Proof.
  unfold force_step. destruct (decide (j = i)); [apply extends_refl|].
  destruct (objs w !! i) as [obj|]; [|apply extends_refl].
  destruct (objs w !! j) as [obj2|]; [|apply extends_refl].
  destruct (pull _ _ _ _) as [[x y]|]; [|apply extends_refl].
  split; cbn [objs calls]; [apply length_insert|].
  other_call.
Qed.

Lemma foldl_extends (step : world -> nat -> world) a b js :
  (forall w j, extends 0 a b w (step w j)) ->
  forall w, extends 0 a b w (foldl step w js).
Proof.
  intros Hstep. induction js as [|j js IH]; intros w; cbn [foldl].
  - apply extends_refl.
  - apply (extends_trans 0 0 a b w (step w j)); [apply Hstep|apply IH].
Qed.

Lemma force_loop_extends a b i w : extends 0 a b w (force_loop SS TS G i w).
Proof. apply foldl_extends. intros; apply force_step_extends. Qed.

Lemma integrate_extends a b i w : extends 0 a b w (integrate SS TS i w).
Proof.
  unfold integrate. destruct (objs w !! i); [|apply extends_refl].
  split; cbn [objs calls]; [apply length_insert|].
  other_call.
Qed.

Lemma draw_extends a b i w : extends 0 a b w (draw i w).
Proof.
  unfold draw. destruct (objs w !! i); [|apply extends_refl].
  split; cbn [objs calls]; [reflexivity|].
  other_call.
Qed.

Lemma clamp_extends a b i w : extends 0 a b w (clamp i w).
Proof.
  unfold clamp. destruct (objs w !! i); [|apply extends_refl].
  split; cbn [objs calls]; [apply length_insert|lia].
Qed.

Lemma collision_step_extends a b i w j :
  extends (step_checks (length (objs w)) a b i j) a b w (collision_step i w j).
Proof.
  unfold collision_step, step_checks.
  destruct (decide (i = j)) as [Hij|Hij].
  { rewrite decide_False by tauto. apply extends_refl. }
  destruct (objs w !! i) as [obj|] eqn:Hi.
  2:{ apply lookup_ge_None in Hi. rewrite decide_False by lia. apply extends_refl. }
  destruct (objs w !! j) as [other|] eqn:Hj.
  2:{ apply lookup_ge_None in Hj. rewrite decide_False by lia. apply extends_refl. }
  apply lookup_lt_Some in Hi, Hj.
  destruct (CheckCollision obj other) as [obj' other'].
  split; cbn [objs calls]; [rewrite !length_insert; reflexivity|].
  rewrite checks_of_app. f_equal. cbn.
  destruct (decide (a = i /\ b = j /\ i <> j /\
                    (i < length (objs w))%nat /\ (j < length (objs w))%nat)) as [H|H].
  - destruct H as (-> & -> & _). rewrite decide_True by reflexivity. reflexivity.
  - rewrite decide_False; [reflexivity|]. intros [= <- <-]. tauto.
Qed.

Lemma collision_steps_extends a b i js : forall w,
  NoDup js ->
  extends (if decide (a = i /\ b ∈ js /\ i <> b /\
                      (i < length (objs w))%nat /\ (b < length (objs w))%nat)
           then 1 else 0)%nat
          a b w (foldl (collision_step i) w js).
Proof.
  induction js as [|j js IH]; intros w Hnd; cbn [foldl].
  - rewrite decide_False; [apply extends_refl|]. intros (_ & H & _). inversion H.
  - apply NoDup_cons in Hnd as [Hj Hnd].
    destruct (collision_step_extends a b i w j) as [H1l H1c].
    pose proof (IH (collision_step i w j) Hnd) as H2.
    rewrite H1l in H2.
    eapply extends_eq; [|apply (extends_trans _ _ a b w _ _ (conj H1l H1c) H2)].
    unfold step_checks. destruct (decide (b = j)) as [->|Hbj].
    + rewrite (decide_False (P := a = i /\ j ∈ js /\ _)) by tauto.
      rewrite Nat.add_0_r. apply decide_ext. rewrite elem_of_cons. tauto.
    + rewrite (decide_False (P := a = i /\ b = j /\ _)) by tauto.
      apply decide_ext. rewrite elem_of_cons. tauto.
Qed.

Lemma collision_loop_extends a b i w :
  extends (if decide (a = i /\ a <> b /\
                      (a < length (objs w))%nat /\ (b < length (objs w))%nat)
           then 1 else 0)%nat
          a b w (collision_loop i w).
Proof.
  unfold collision_loop.
  eapply extends_eq; [|apply collision_steps_extends, NoDup_seq].
  apply decide_ext. rewrite elem_of_seq.
  split; intros H; destruct_and!; subst; split_and!; auto; lia.
Qed.

Lemma body_extends a b w i :
  extends (if decide (a = i /\ a <> b /\
                      (a < length (objs w))%nat /\ (b < length (objs w))%nat)
           then 1 else 0)%nat
          a b w (body SS TS G w i).
Proof.
  unfold body.
  pose proof (force_loop_extends a b i w) as H1.
  pose proof (integrate_extends a b i (force_loop SS TS G i w)) as H2.
  pose proof (draw_extends a b i (integrate SS TS i (force_loop SS TS G i w))) as H3.
  pose proof (clamp_extends a b i
                (draw i (integrate SS TS i (force_loop SS TS G i w)))) as H4.
  pose proof (extends_trans _ _ _ _ _ _ _
                (extends_trans _ _ _ _ _ _ _ (extends_trans _ _ _ _ _ _ _ H1 H2) H3)
                H4) as H.
  pose proof (collision_loop_extends a b i
                (clamp i (draw i (integrate SS TS i (force_loop SS TS G i w))))) as H5.
  destruct H as [Hl Hc]. rewrite Hl in H5.
  apply (extends_trans _ _ _ _ _ _ _ (conj Hl Hc) H5).
Qed.

Lemma bodies_extends a b ks : forall w,
  NoDup ks ->
  extends (if decide (a ∈ ks /\ a <> b /\
                      (a < length (objs w))%nat /\ (b < length (objs w))%nat)
           then 1 else 0)%nat
          a b w (foldl (body SS TS G) w ks).
Proof.
  induction ks as [|i ks IH]; intros w Hnd; cbn [foldl].
  - rewrite decide_False; [apply extends_refl|]. intros (H & _). inversion H.
  - apply NoDup_cons in Hnd as [Hi Hnd].
    destruct (body_extends a b w i) as [H1l H1c].
    pose proof (IH (body SS TS G w i) Hnd) as H2.
    rewrite H1l in H2.
    eapply extends_eq; [|apply (extends_trans _ _ _ _ _ _ _ (conj H1l H1c) H2)].
    destruct (decide (a = i)) as [->|Hai].
    + rewrite (decide_False (P := i ∈ ks /\ _)) by tauto.
      rewrite Nat.add_0_r. apply decide_ext. rewrite elem_of_cons. tauto.
    + rewrite (decide_False (P := a = i /\ _)) by tauto.
      apply decide_ext. rewrite elem_of_cons. tauto.
Qed.

(** A frame calls [CheckCollision] once on every ordered pair of distinct
    indices, and on nothing else. *)
Lemma tick_checks a b (os : list Object) :
  checks_of a b (tick_calls SS TS G os) =
  if decide (a <> b /\ (a < length os)%nat /\ (b < length os)%nat)
  then 1%nat else 0%nat.
Proof.
  unfold tick_calls, tick_world.
  destruct (bodies_extends a b (seq 0 (length os)) (World os []) (NoDup_seq _ _))
    as [_ H].
  cbn [objs calls] in *. rewrite H. cbn.
  apply decide_ext. rewrite elem_of_seq.
  split; intros ?; destruct_and!; split_and!; auto; lia.
Qed.

Lemma tick_length (os : list Object) : length (tick SS TS G os) = length os.
Proof.
  unfold tick, tick_world.
  destruct (bodies_extends 0 0 (seq 0 (length os)) (World os []) (NoDup_seq _ _))
    as [H _].
  exact H.
Qed.

(** ** The force loop of one body *)

Lemma too_close_anchor (a a' b b' : Object) :
  anchor a = anchor a' -> anchor b = anchor b' ->
  too_close SS a b = too_close SS a' b'.
Proof.
  unfold anchor, too_close, distanceReal, distanceSim, distance.
  intros [= -> ->] [= -> ->]. reflexivity.
Qed.

Lemma too_close_at_anchor (os os' : list Object) i j :
  anchor <$> os = anchor <$> os' -> too_close_at SS os i j = too_close_at SS os' i j.
Proof.
  intros H. unfold too_close_at.
  assert (forall k, anchor <$> (os !! k) = anchor <$> (os' !! k)) as Hk
    by (intros k; rewrite <- !list_lookup_fmap, H; reflexivity).
  pose proof (Hk i) as Hi. pose proof (Hk j) as Hj.
  destruct (os !! i) as [a|], (os' !! i) as [a'|]; try discriminate; try reflexivity;
    destruct (os !! j) as [b|], (os' !! j) as [b'|]; try discriminate; try reflexivity.
  cbn in Hi, Hj. apply too_close_anchor; congruence.
Qed.

(** The force loop only writes velocities. *)
Lemma force_step_anchor i w j :
  anchor <$> objs (force_step SS TS G i w j) = anchor <$> objs w.
Proof.
  unfold force_step. destruct (decide (j = i)); [reflexivity|].
  destruct (objs w !! i) as [obj|] eqn:Hi; [|reflexivity].
  destruct (objs w !! j) as [obj2|]; [|reflexivity].
  destruct (pull SS G obj obj2) as [[x y]|]; [|reflexivity].
  cbn [objs]. rewrite list_fmap_insert.
  apply list_insert_id. rewrite list_lookup_fmap, Hi. reflexivity.
Qed.

Lemma force_step_skip i w j :
  too_close_at SS (objs w) i j = true -> force_step SS TS G i w j = w.
Proof.
  unfold too_close_at, force_step. intros H.
  destruct (decide (j = i)); [reflexivity|].
  destruct (objs w !! i) as [obj|]; [|reflexivity].
  destruct (objs w !! j) as [obj2|]; [|reflexivity].
  unfold pull. rewrite H. reflexivity.
Qed.

(** A pair that is too close when the force loop of body [i] starts
    contributes nothing to the loop: the loop may as well leave [j] out. *)
Lemma force_steps_skip i j js : forall w,
  too_close_at SS (objs w) i j = true ->
  foldl (force_step SS TS G i) w js
    = foldl (force_step SS TS G i) w (filter (fun k => k <> j) js).
Proof.
  induction js as [|k js IH]; intros w H; [reflexivity|].
  rewrite filter_cons. cbn [foldl]. destruct (decide (k <> j)) as [Hk|Hk].
  - cbn [foldl]. apply IH.
    rewrite (too_close_at_anchor _ (objs w)) by apply force_step_anchor. exact H.
  - assert (k = j) as -> by (destruct (decide (k = j)); tauto).
    rewrite force_step_skip by exact H. apply IH, H.
Qed.

(** ** The collision loop of one body *)

Lemma collides_place (a a' b b' : Object) :
  place a = place a' -> place b = place b' -> collides a b = collides a' b'.
Proof.
  unfold place, collides, distance. intros [= -> ->] [= -> ->]. reflexivity.
Qed.

Lemma collides_at_place (os os' : list Object) i j :
  place <$> os = place <$> os' -> collides_at os i j = collides_at os' i j.
Proof.
  intros H. unfold collides_at.
  assert (forall k, place <$> (os !! k) = place <$> (os' !! k)) as Hk
    by (intros k; rewrite <- !list_lookup_fmap, H; reflexivity).
  pose proof (Hk i) as Hi. pose proof (Hk j) as Hj.
  destruct (os !! i) as [a|], (os' !! i) as [a'|]; try discriminate; try reflexivity;
    destruct (os !! j) as [b|], (os' !! j) as [b'|]; try discriminate; try reflexivity.
  cbn in Hi, Hj. apply collides_place; congruence.
Qed.

Lemma CheckCollision_place (this other : Object) :
  place (fst (CheckCollision this other)) = place this /\
  place (snd (CheckCollision this other)) = place other.
Proof. unfold CheckCollision. destruct (collides this other); split; reflexivity. Qed.

Lemma collision_step_place i w j :
  place <$> objs (collision_step i w j) = place <$> objs w.
Proof.
  unfold collision_step. destruct (decide (i = j)); [reflexivity|].
  destruct (objs w !! i) as [obj|] eqn:Hi; [|reflexivity].
  destruct (objs w !! j) as [other|] eqn:Hj; [|reflexivity].
  destruct (CheckCollision_place obj other) as [H1 H2].
  destruct (CheckCollision obj other) as [obj' other']. cbn [fst snd objs] in *.
  rewrite !list_fmap_insert, H1, H2.
  rewrite (list_insert_id (place <$> objs w) i)
    by (rewrite list_lookup_fmap, Hi; reflexivity).
  apply list_insert_id. rewrite list_lookup_fmap, Hj. reflexivity.
Qed.

Lemma collision_loop_place i w :
  place <$> objs (collision_loop i w) = place <$> objs w.
Proof.
  unfold collision_loop. generalize (seq 0 (length (objs w))) as js.
  intros js. revert w. induction js as [|j js IH]; intros w; cbn [foldl].
  - reflexivity.
  - rewrite IH. apply collision_step_place.
Qed.

Lemma set_velocity_twice v v' o : set_velocity v (set_velocity v' o) = set_velocity v o.
Proof. reflexivity. Qed.

Lemma set_velocity_id o : set_velocity (velocity o) o = o.
Proof. destruct o; reflexivity. Qed.

(** What one collision step does to the body [i] itself. *)
Lemma collision_step_self i w j o :
  objs w !! i = Some o ->
  objs (collision_step i w j) !! i
    = Some (if decide (i <> j /\ collides_at (objs w) i j = true)
            then set_velocity (reverse (velocity o)) o else o).
Proof.
  intros Hi. unfold collision_step, collides_at. rewrite Hi.
  destruct (decide (i = j)) as [Hij|Hij].
  { rewrite decide_False by tauto. exact Hi. }
  destruct (objs w !! j) as [other|] eqn:Hj.
  2:{ rewrite decide_False by (intros [_ H]; discriminate). exact Hi. }
  unfold CheckCollision. destruct (collides o other) eqn:Hc; cbn [objs].
  - rewrite decide_True by tauto.
    rewrite list_lookup_insert_ne by congruence.
    apply list_lookup_insert_eq. eapply lookup_lt_Some, Hi.
  - rewrite decide_False by (intros [_ H]; discriminate).
    rewrite list_lookup_insert_ne by congruence.
    apply list_lookup_insert_eq. eapply lookup_lt_Some, Hi.
Qed.

(** After the collision steps of body [i] against the indices [js], its
    velocity has been reversed once for each overlapping body among them. *)
Lemma collision_steps_velocity i js : forall w o,
  objs w !! i = Some o ->
  objs (foldl (collision_step i) w js) !! i
    = Some (set_velocity
              (Nat.iter (length (overlapping_among (objs w) i js)) reverse (velocity o))
              o).
Proof.
  unfold overlapping_among.
  induction js as [|j js IH]; intros w o Hi; cbn [foldl].
  - cbn. rewrite set_velocity_id. exact Hi.
  - pose proof (collision_step_place i w j) as Hpl.
    assert (forall k, (i <> k /\ collides_at (objs (collision_step i w j)) i k = true)
                      <-> (i <> k /\ collides_at (objs w) i k = true)) as Hiff
      by (intros k; rewrite (collides_at_place _ _ i k Hpl); reflexivity).
    pose proof (collision_step_self i w j o Hi) as Hself.
    rewrite (IH _ _ Hself). rewrite (list_filter_iff _ _ js Hiff).
    rewrite filter_cons.
    destruct (decide (i <> j /\ collides_at (objs w) i j = true)); [|reflexivity].
    cbn [length]. rewrite Nat.iter_succ_r. reflexivity.
Qed.

End LoopFacts.

(** * The properties of the specification *)

(** ** [updatePosition] *)

(** C8.  [updatePosition] adds [velocity * TIME_SCALE * SPACE_SCALE] to each
    component of the position: the increment is computed from the current
    velocity and the two scale factors alone.  Nothing else changes: the
    velocity, the radius, the mass and the real radius of the body are the
    ones it had. *)
Theorem updatePosition_moves_position_only (SS TS : float) (this : Object) :
  position (updatePosition SS TS this)
    = Vec2 (at0 (position this) + at0 (velocity this) * TS * SS)%f32
           (at1 (position this) + at1 (velocity this) * TS * SS)%f32 /\
  velocity (updatePosition SS TS this) = velocity this /\
  radius (updatePosition SS TS this) = radius this /\
  mass (updatePosition SS TS this) = mass this /\
  realRadius (updatePosition SS TS this) = realRadius this.
Proof. repeat split. Qed.

(** ** [CheckCollision] *)

(** The test of [CheckCollision] is not the Euclidean one.  The discs
    [Discs.A] and [Discs.B] do not meet (their centres are
    16700030 * 2^-26 apart, more than the sum 16700029.5 * 2^-26 of the
    radii), yet the distance is computed as 16700029 * 2^-26 and the sum
    of the radii as 16700030 * 2^-26, and both velocities are reversed.
    The discs [Discs.C] and [Discs.D] overlap (0.5 apart, radii adding up
    to 0.5 + 2^-25), yet the sum of the radii is computed as 0.5 and the
    two bodies are left as they were. *)
Lemma euclidean_test_counterexample :
  (finite_place Discs.A = true /\ finite_place Discs.B = true /\
   euclidean_overlap Discs.A Discs.B = false /\
   distance Discs.A Discs.B = S754_finite false 16700029 (-26) /\
   (radius Discs.B + radius Discs.A)%f32 = S754_finite false 16700030 (-26) /\
   CheckCollision Discs.A Discs.B
     = (set_velocity (opp_vec (velocity Discs.A)) Discs.A,
        set_velocity (opp_vec (velocity Discs.B)) Discs.B) /\
   velocity (fst (CheckCollision Discs.A Discs.B)) <> velocity Discs.A) /\
  (finite_place Discs.C = true /\ finite_place Discs.D = true /\
   euclidean_overlap Discs.C Discs.D = true /\
   distance Discs.C Discs.D = S754_finite false 8388608 (-24) /\
   (radius Discs.D + radius Discs.C)%f32 = S754_finite false 8388608 (-24) /\
   CheckCollision Discs.C Discs.D = (Discs.C, Discs.D)).
Proof.
  vm_compute. split_and!; try reflexivity. discriminate.
Qed.

(** C4 (as amended).  [CheckCollision] reverses the velocities exactly when
    the distance it computes in binary32 is strictly less than the sum of
    the two display radii it computes in binary32: with [dx] and [dy] the
    rounded differences of the coordinates, the distance is the rounded
    square root of the rounded sum of the rounded squares [dx * dx] and
    [dy * dy], and the sum of the radii is the rounded
    [other.radius + this->radius].  Then both velocities are negated
    component by component; otherwise both bodies are returned as they
    were.  In either case the positions (and radii, masses, real radii)
    are not touched. *)
Theorem CheckCollision_spec (this other : Object) :
  valid_vec (velocity this) = true ->
  valid_vec (velocity other) = true ->
  ((F32.sqrt
      ((at0 (position other) - at0 (position this))
         * (at0 (position other) - at0 (position this))
       + (at1 (position other) - at1 (position this))
         * (at1 (position other) - at1 (position this)))
    <? radius other + radius this)%f32 = true ->
     CheckCollision this other
       = (set_velocity (opp_vec (velocity this)) this,
          set_velocity (opp_vec (velocity other)) other)) /\
  ((F32.sqrt
      ((at0 (position other) - at0 (position this))
         * (at0 (position other) - at0 (position this))
       + (at1 (position other) - at1 (position this))
         * (at1 (position other) - at1 (position this)))
    <? radius other + radius this)%f32 = false ->
     CheckCollision this other = (this, other)) /\
  position (fst (CheckCollision this other)) = position this /\
  position (snd (CheckCollision this other)) = position other /\
  place (fst (CheckCollision this other)) = place this /\
  place (snd (CheckCollision this other)) = place other /\
  mass (fst (CheckCollision this other)) = mass this /\
  mass (snd (CheckCollision this other)) = mass other /\
  realRadius (fst (CheckCollision this other)) = realRadius this /\
  realRadius (snd (CheckCollision this other)) = realRadius other.
Proof.
  intros Hv Hv'. unfold CheckCollision, collides, distance.
  destruct (F32.sqrt _ <? radius other + radius this)%f32.
  - rewrite !reverse_opp by assumption. repeat split; intros; congruence.
  - repeat split; intros; congruence.
Qed.

Lemma CheckCollision_spec_witness :
  CheckCollision EarthMoon.Earth Examples.Earth2
    = (set_velocity (opp_vec (velocity EarthMoon.Earth)) EarthMoon.Earth,
       set_velocity (opp_vec (velocity Examples.Earth2)) Examples.Earth2).
Proof.
  apply (CheckCollision_spec EarthMoon.Earth Examples.Earth2);
    vm_compute; reflexivity.
Defined.

(** ** The minimum-separation skip *)

(** C5.  When the real distance computed for the ordered pair of distinct
    bodies [(i, j)] is below the sum of their real radii, the iteration of
    the force loop for that pair changes nothing: no argument is computed
    for [accelerate], no call is made, nothing is signalled and no body is
    modified, so the velocity of body [i] receives no contribution from
    body [j].  The pair is not visited again: the whole force loop of body
    [i] is the loop over the other indices. *)
Theorem close_pair_is_skipped (SS TS G : float) (i j : nat) (w : world)
    (obj obj2 : Object) :
  i <> j ->
  objs w !! i = Some obj ->
  objs w !! j = Some obj2 ->
  (distanceReal SS obj obj2 <? realRadius obj + realRadius obj2)%f32 = true ->
  pull SS G obj obj2 = None /\
  force_step SS TS G i w j = w /\
  objs (force_step SS TS G i w j) !! i = Some obj /\
  force_loop SS TS G i w
    = foldl (force_step SS TS G i) w
        (filter (fun k => k <> j) (seq 0 (length (objs w)))).
Proof.
  intros Hij Hi Hj Hclose.
  assert (too_close_at SS (objs w) i j = true) as Hat
    by (unfold too_close_at, too_close; rewrite Hi, Hj; exact Hclose).
  assert (pull SS G obj obj2 = None) as Hp
    by (unfold pull, too_close; rewrite Hclose; reflexivity).
  rewrite (force_step_skip SS TS G i w j Hat).
  split_and!; auto.
  apply force_steps_skip, Hat.
Qed.

Lemma close_pair_is_skipped_witness :
  force_step EarthMoon.SPACE_SCALE EarthMoon.TIME_SCALE EarthMoon.G 0
    (World [EarthMoon.Earth; Examples.Earth2] []) 1
  = World [EarthMoon.Earth; Examples.Earth2] [].
Proof.
  destruct (close_pair_is_skipped EarthMoon.SPACE_SCALE EarthMoon.TIME_SCALE
              EarthMoon.G 0 1 (World [EarthMoon.Earth; Examples.Earth2] [])
              EarthMoon.Earth Examples.Earth2) as (_ & H & _);
    [lia|reflexivity|reflexivity|vm_compute; reflexivity|exact H].
Defined.

(** ** Boundary reflection *)

(** C6, as the specification states it: whenever the edge at
    [position + radius] is beyond +1, the position becomes [1 - radius].
    A disc wider than the screen refutes it: its lower edge test fires
    first and it is put at [-1 + radius]. *)
Lemma beyond_edge_counterexample :
  beyond0 Examples.wide = true /\
  at0 (position (boundary Examples.wide)) <> (Lit.one - radius Examples.wide)%f32.
Proof. split; [reflexivity|vm_compute; discriminate]. Qed.

Lemma boundary1_axis0 (obj : Object) :
  at0 (position (boundary1 obj)) = at0 (position obj) /\
  at0 (velocity (boundary1 obj)) = at0 (velocity obj) /\
  radius (boundary1 obj) = radius obj /\
  mass (boundary1 obj) = mass obj /\
  realRadius (boundary1 obj) = realRadius obj.
Proof.
  unfold boundary1. destruct (below1 obj); [|destruct (beyond1 obj)]; repeat split.
Qed.

Lemma boundary0_axis1 (obj : Object) :
  at1 (position (boundary0 obj)) = at1 (position obj) /\
  at1 (velocity (boundary0 obj)) = at1 (velocity obj) /\
  radius (boundary0 obj) = radius obj /\
  mass (boundary0 obj) = mass obj /\
  realRadius (boundary0 obj) = realRadius obj.
Proof.
  unfold boundary0. destruct (below0 obj); [|destruct (beyond0 obj)]; repeat split.
Qed.

Lemma boundary1_tests0 (obj : Object) :
  below0 (boundary1 obj) = below0 obj /\ beyond0 (boundary1 obj) = beyond0 obj.
Proof.
  unfold below0, beyond0. destruct (boundary1_axis0 obj) as (-> & _ & -> & _).
  split; reflexivity.
Qed.

(** C6 (amended).  On each axis: if the edge at [position - radius] is below
    -1 the position becomes exactly [-1 + radius] and the velocity of that
    axis changes sign; otherwise, if the edge at [position + radius] is
    beyond +1, the position becomes exactly [1 - radius] and the velocity
    of that axis changes sign; otherwise the axis is left alone.  The clamp
    of one axis leaves the position and velocity of the other axis (and the
    radius, mass and real radius) unchanged, and both axes can be clamped
    in the same frame. *)
Theorem boundary_reflection (obj : Object) :
  (below0 obj = true ->
     at0 (position (boundary obj)) = (Lit.minus_one + radius obj)%f32 /\
     at0 (velocity (boundary obj)) = (- at0 (velocity obj))%f32) /\
  (below0 obj = false -> beyond0 obj = true ->
     at0 (position (boundary obj)) = (Lit.one - radius obj)%f32 /\
     at0 (velocity (boundary obj)) = (- at0 (velocity obj))%f32) /\
  (below0 obj = false -> beyond0 obj = false ->
     at0 (position (boundary obj)) = at0 (position obj) /\
     at0 (velocity (boundary obj)) = at0 (velocity obj)) /\
  (below1 obj = true ->
     at1 (position (boundary obj)) = (Lit.minus_one + radius obj)%f32 /\
     at1 (velocity (boundary obj)) = (- at1 (velocity obj))%f32) /\
  (below1 obj = false -> beyond1 obj = true ->
     at1 (position (boundary obj)) = (Lit.one - radius obj)%f32 /\
     at1 (velocity (boundary obj)) = (- at1 (velocity obj))%f32) /\
  (below1 obj = false -> beyond1 obj = false ->
     at1 (position (boundary obj)) = at1 (position obj) /\
     at1 (velocity (boundary obj)) = at1 (velocity obj)) /\
  (at0 (position (boundary1 obj)) = at0 (position obj) /\
   at0 (velocity (boundary1 obj)) = at0 (velocity obj)) /\
  (at1 (position (boundary0 obj)) = at1 (position obj) /\
   at1 (velocity (boundary0 obj)) = at1 (velocity obj)) /\
  (radius (boundary obj) = radius obj /\
   mass (boundary obj) = mass obj /\
   realRadius (boundary obj) = realRadius obj) /\
  (beyond0 Examples.corner = true /\ beyond1 Examples.corner = true /\
   position (boundary Examples.corner)
     = Vec2 (Lit.one - radius Examples.corner)%f32
            (Lit.one - radius Examples.corner)%f32 /\
   velocity (boundary Examples.corner)
     = opp_vec (velocity Examples.corner)).
Proof.
  destruct (boundary1_tests0 obj) as [Hb0 Hy0].
  destruct (boundary1_axis0 obj) as (Hp0 & Hv0 & Hr & Hm & Hrr).
  destruct (boundary0_axis1 (boundary1 obj)) as (Hp1 & Hv1 & Hr' & Hm' & Hrr').
  unfold boundary.
  split_and!; try tauto; try congruence.
  - intros H. unfold boundary0. rewrite Hb0, H. cbn. rewrite Hr, Hv0. auto.
  - intros H H'. unfold boundary0. rewrite Hb0, Hy0, H, H'. cbn. rewrite Hr, Hv0. auto.
  - intros H H'. unfold boundary0. rewrite Hb0, Hy0, H, H'. auto.
  - intros H. rewrite Hp1, Hv1. unfold boundary1. rewrite H. auto.
  - intros H H'. rewrite Hp1, Hv1. unfold boundary1. rewrite H, H'. auto.
  - intros H H'. rewrite Hp1, Hv1. unfold boundary1. rewrite H, H'. auto.
  - apply boundary0_axis1.
  - apply boundary0_axis1.
Qed.

Lemma boundary_reflection_witness :
  at0 (position (boundary Examples.corner)) = (Lit.one - radius Examples.corner)%f32 /\
  at0 (velocity (boundary Examples.corner)) = (- at0 (velocity Examples.corner))%f32.
Proof.
  apply (boundary_reflection Examples.corner); reflexivity.
Defined.

(** ** A body on its own *)

(** C3, as the specification states it: a lone body keeps its position.
    The Moon on its own, with its initial velocity of 1022 m/s, does not:
    after one frame it has moved. *)
Lemma lone_moon_counterexample :
  position <$> tick EarthMoon.SPACE_SCALE EarthMoon.TIME_SCALE EarthMoon.G
                 [EarthMoon.Moon]
  <> position <$> [EarthMoon.Moon].
Proof. vm_compute. discriminate. Qed.

Lemma rest_inside_fixed (SS TS : float) (o : Object) :
  velocity o = Vec2 Lit.zero Lit.zero ->
  displacement SS TS Lit.zero = Lit.zero ->
  at0 (position o) <> S754_zero true ->
  at1 (position o) <> S754_zero true ->
  inside o = true ->
  boundary (updatePosition SS TS o) = o.
Proof.
  intros Hv Hd H0 H1 Hin.
  assert (updatePosition SS TS o = o) as ->.
  { unfold updatePosition. rewrite Hv. cbn [at0 at1]. rewrite Hd.
    rewrite !add_zero_r by assumption. destruct o as [[p0 p1] v r m rr]. reflexivity. }
  unfold inside in Hin. repeat (apply andb_prop in Hin; destruct Hin as [Hin ?]).
  unfold boundary, boundary1.
  destruct (below1 o); [discriminate|]. destruct (beyond1 o); [discriminate|].
  unfold boundary0.
  destruct (below0 o); [discriminate|]. destruct (beyond0 o); [discriminate|].
  reflexivity.
Qed.

(** C3 (amended).  In a system of exactly one body no force and no collision
    response is applied: a frame only integrates the position with the
    unchanged velocity and reflects the body at the boundary, and its only
    calls are [updatePosition] and [DrawCircle].  So a lone body that is at
    rest (zero velocity, for which the displacement is zero) inside the
    screen, with no position component equal to -0, has exactly its
    initial position and velocity after any number of frames. *)
Theorem single_body (SS TS G : float) (o : Object) :
  tick SS TS G [o] = [boundary (updatePosition SS TS o)] /\
  tick_calls SS TS G [o]
    = [CallUpdatePosition 0;
       CallDrawCircle 0 (at0 (position (updatePosition SS TS o)))
         (at1 (position (updatePosition SS TS o))) (radius o) 50] /\
  (velocity o = Vec2 Lit.zero Lit.zero ->
   displacement SS TS Lit.zero = Lit.zero ->
   at0 (position o) <> S754_zero true ->
   at1 (position o) <> S754_zero true ->
   inside o = true ->
   forall (n : nat) (t : float), bodies (frames SS TS G n (Sim [o] t)) = [o]).
Proof.
  split; [reflexivity|]. split; [reflexivity|].
  intros Hv Hd H0 H1 Hin n.
  induction n as [|n IH]; intros t; cbn [frames].
  - reflexivity.
  - unfold frame at 1. cbn [bodies simulationTime].
    change (tick SS TS G [o]) with [boundary (updatePosition SS TS o)].
    rewrite rest_inside_fixed by assumption. apply IH.
Qed.

Lemma single_body_witness :
  bodies (frames EarthMoon.SPACE_SCALE EarthMoon.TIME_SCALE EarthMoon.G 3
            (Sim [Examples.resting] Lit.zero))
  = [Examples.resting].
Proof.
  apply (single_body EarthMoon.SPACE_SCALE EarthMoon.TIME_SCALE EarthMoon.G
           Examples.resting);
    [reflexivity|reflexivity|discriminate|discriminate|reflexivity].
Defined.

(** ** The first frame of Earth and Moon *)

(** C1, as the specification states it: the Moon is moved with the velocity
    it had before the frame accelerated it.  Its position after the first
    frame is not the one this would give. *)
Lemma moon_first_tick_counterexample :
  position (updatePosition EarthMoon.SPACE_SCALE EarthMoon.TIME_SCALE EarthMoon.Moon)
    = Vec2 Lit.moon_x (S754_finite false 13717051 (-28)) /\
  position <$> (tick EarthMoon.SPACE_SCALE EarthMoon.TIME_SCALE EarthMoon.G
                  EarthMoon.objs !! 1%nat)
  <> Some (position (updatePosition EarthMoon.SPACE_SCALE EarthMoon.TIME_SCALE
                       EarthMoon.Moon)).
Proof. split; [vm_compute; reflexivity|vm_compute; discriminate]. Qed.

(** Integration reads the velocity that the force loop has just written. *)
Lemma integrate_after_force_loop (SS TS G : float) (i : nat) (w : world) (o : Object) :
  objs (force_loop SS TS G i w) !! i = Some o ->
  objs (integrate SS TS i (force_loop SS TS G i w)) !! i
    = Some (updatePosition SS TS o).
Proof.
  intros H. unfold integrate. rewrite H. cbn [objs].
  apply list_lookup_insert_eq. eapply lookup_lt_Some, H.
Qed.

(** C1 (amended).  In the first frame of the Earth-Moon scenario the calls
    follow the phase order, body by body: [accelerate], [updatePosition],
    [DrawCircle], then [CheckCollision].  The force loop of the Moon calls
    [accelerate] with the pull of the (already moved) Earth, which changes
    the Moon's velocity, and [updatePosition] then advances the position by
    that new velocity: the Moon ends the frame at the position computed
    from the velocity after the acceleration, and with that velocity.  In
    numbers: the velocity becomes about (-135.16, 1022) m/s and the
    position about (0.37724, 0.05110). *)
Theorem moon_first_tick :
  objs FirstFrame.after_earth !! 0%nat = Some FirstFrame.moved_earth /\
  pull EarthMoon.SPACE_SCALE EarthMoon.G EarthMoon.Moon FirstFrame.moved_earth
    = Some FirstFrame.moon_pull /\
  objs FirstFrame.moon_accelerated !! 1%nat = Some FirstFrame.accelerated_moon /\
  FirstFrame.accelerated_moon
    = accelerate EarthMoon.TIME_SCALE EarthMoon.Moon
        (fst FirstFrame.moon_pull) (snd FirstFrame.moon_pull) /\
  velocity FirstFrame.accelerated_moon <> velocity EarthMoon.Moon /\
  tick EarthMoon.SPACE_SCALE EarthMoon.TIME_SCALE EarthMoon.G EarthMoon.objs
    !! 1%nat = Some FirstFrame.moon1 /\
  FirstFrame.moon1
    = updatePosition EarthMoon.SPACE_SCALE EarthMoon.TIME_SCALE
        FirstFrame.accelerated_moon /\
  position FirstFrame.moon1
    = Vec2 (at0 (position EarthMoon.Moon)
            + at0 (velocity FirstFrame.accelerated_moon)
              * EarthMoon.TIME_SCALE * EarthMoon.SPACE_SCALE)%f32
           (at1 (position EarthMoon.Moon)
            + at1 (velocity FirstFrame.accelerated_moon)
              * EarthMoon.TIME_SCALE * EarthMoon.SPACE_SCALE)%f32 /\
  velocity FirstFrame.accelerated_moon
    = Vec2 (S754_finite true 8858011 (-16)) Lit.moon_vy /\
  position FirstFrame.moon1
    = Vec2 (S754_finite false 12658137 (-25)) (S754_finite false 13717051 (-28)) /\
  tick_calls EarthMoon.SPACE_SCALE EarthMoon.TIME_SCALE EarthMoon.G EarthMoon.objs
    = FirstFrame.calls_expected.
Proof.
  split_and!; try (vm_compute; reflexivity).
  vm_compute. discriminate.
Qed.

(** ** How often the collision test runs *)

(** C2, as the specification states it: one test per unordered pair and
    frame.  With Earth and Moon the pair is tested twice in a frame, once
    in the iteration of each body. *)
Lemma collision_tests_counterexample :
  tests_between 0 1
    (tick_calls EarthMoon.SPACE_SCALE EarthMoon.TIME_SCALE EarthMoon.G EarthMoon.objs)
  <> 1%nat.
Proof. vm_compute. discriminate. Qed.

(** C2 (amended).  In every frame [CheckCollision] is called exactly once on
    every ordered pair [(i, j)] of distinct bodies, that is twice on every
    unordered pair: once in the collision loop of each of the two bodies.
    Within the collision loop of one body, positions stay as they are, and
    a body that overlaps exactly two others has its velocity reversed
    twice, which gives it back the velocity it had. *)
Theorem collision_tests_per_tick (SS TS G : float) :
  (forall (os : list Object) (i j : nat),
     (i < length os)%nat -> (j < length os)%nat -> i <> j ->
     checks_of i j (tick_calls SS TS G os) = 1%nat /\
     tests_between i j (tick_calls SS TS G os) = 2%nat) /\
  (forall (os : list Object) (i : nat),
     checks_of i i (tick_calls SS TS G os) = 0%nat) /\
  (forall (w : world) (i : nat) (o : Object),
     objs w !! i = Some o ->
     length (overlapping (objs w) i) = 2%nat ->
     place <$> objs (collision_loop i w) = place <$> objs w /\
     objs (collision_loop i w) !! i
       = Some (set_velocity (reverse (reverse (velocity o))) o) /\
     (valid_vec (velocity o) = true -> objs (collision_loop i w) !! i = Some o)).
Proof.
  split_and!.
  - intros os i j Hi Hj Hij. unfold tests_between.
    rewrite !tick_checks, !decide_True by (split_and!; auto). auto.
  - intros os i. rewrite tick_checks, decide_False by tauto. reflexivity.
  - intros w i o Hi H2.
    pose proof (collision_steps_velocity i (seq 0 (length (objs w))) w o Hi) as Hv.
    fold (collision_loop i w) in Hv. fold (overlapping (objs w) i) in Hv.
    rewrite H2 in Hv. cbn [Nat.iter nat_rect] in Hv.
    split_and!; [apply collision_loop_place|exact Hv|].
    intros Hvalid. rewrite Hv, reverse_reverse, set_velocity_id by assumption.
    reflexivity.
Qed.

Lemma collision_tests_per_tick_witness :
  (checks_of 0 1
     (tick_calls EarthMoon.SPACE_SCALE EarthMoon.TIME_SCALE EarthMoon.G EarthMoon.objs)
   = 1%nat /\
   tests_between 0 1
     (tick_calls EarthMoon.SPACE_SCALE EarthMoon.TIME_SCALE EarthMoon.G EarthMoon.objs)
   = 2%nat) /\
  objs (collision_loop 0
          (World [EarthMoon.Earth; Examples.Earth2; Examples.Earth3] []))
    !! 0%nat = Some EarthMoon.Earth.
Proof.
  destruct (collision_tests_per_tick EarthMoon.SPACE_SCALE EarthMoon.TIME_SCALE
              EarthMoon.G) as (H1 & _ & H3).
  split.
  - apply (H1 EarthMoon.objs 0%nat 1%nat); cbn; lia.
  - apply (H3 (World [EarthMoon.Earth; Examples.Earth2; Examples.Earth3] [])
              0%nat EarthMoon.Earth); reflexivity.
Defined.

(** ** Symmetry of the force *)

(** C7, as the specification states it: the two force magnitudes of a pair are
    equal.  For the Earth and a body with the mass of Mars, far enough
    apart for the force to be computed, they are not: the products
    [G * m_Earth * m_Mars] and [G * m_Mars * m_Earth] round differently. *)
Lemma force_symmetry_counterexample :
  too_close EarthMoon.SPACE_SCALE EarthMoon.Earth Examples.Mars = false /\
  too_close EarthMoon.SPACE_SCALE Examples.Mars EarthMoon.Earth = false /\
  force EarthMoon.SPACE_SCALE EarthMoon.G EarthMoon.Earth Examples.Mars
    = S754_finite false 12268434 47 /\
  force EarthMoon.SPACE_SCALE EarthMoon.G Examples.Mars EarthMoon.Earth
    = S754_finite false 12268435 47 /\
  force EarthMoon.SPACE_SCALE EarthMoon.G EarthMoon.Earth Examples.Mars
  <> force EarthMoon.SPACE_SCALE EarthMoon.G Examples.Mars EarthMoon.Earth.
Proof. vm_compute. repeat split; discriminate. Qed.

Lemma square_sub_swap (a b : float) :
  ((b - a) * (b - a))%f32 = ((a - b) * (a - b))%f32.
Proof.
  destruct (sub_swap a b) as [->|[-> ->]]; [apply mul_opp_opp|reflexivity].
Qed.

Lemma distance_sym (a b : Object) : distance a b = distance b a.
Proof.
  unfold distance.
  rewrite (square_sub_swap (at0 (position a)) (at0 (position b))).
  rewrite (square_sub_swap (at1 (position a)) (at1 (position b))).
  reflexivity.
Qed.

Lemma div_zero_same (d : float) :
  same_number (Lit.zero / d)%f32 (- (Lit.zero / d))%f32.
Proof.
  destruct d as [s|s| |s m e]; cbn; unfold same_number; cbn; auto.
Qed.

Lemma quotient_sub_swap (a b d : float) :
  same_number ((a - b) / d)%f32 (- ((b - a) / d))%f32.
Proof.
  destruct (sub_swap b a) as [->|[-> ->]].
  - left. apply div_opp_l.
  - apply div_zero_same.
Qed.

(** C7 (amended).  For the two bodies of a pair, at the same two positions:
    the distances computed in the two directions are the same, so the skip
    test gives the same answer, and the unit directions are opposite
    (component by component, a zero component staying a zero).  Each force
    is the rounded product [(G * own mass) * other mass] divided by the
    square of the real distance, so it is inversely proportional to that
    square; the two magnitudes are equal whenever the two products are,
    in particular for equal masses. *)
Theorem force_symmetry (SS G : float) (a b : Object) :
  distanceSim b a = distanceSim a b /\
  distanceReal SS b a = distanceReal SS a b /\
  too_close SS b a = too_close SS a b /\
  same_number (at0 (direction b a)) (- at0 (direction a b))%f32 /\
  same_number (at1 (direction b a)) (- at1 (direction a b))%f32 /\
  force SS G a b
    = (G * mass a * mass b / (distanceReal SS a b * distanceReal SS a b))%f32 /\
  force SS G b a
    = (G * mass b * mass a / (distanceReal SS a b * distanceReal SS a b))%f32 /\
  ((G * mass a * mass b)%f32 = (G * mass b * mass a)%f32 ->
   force SS G a b = force SS G b a) /\
  (mass a = mass b -> force SS G a b = force SS G b a).
Proof.
  assert (distanceSim b a = distanceSim a b) as Hd by apply distance_sym.
  assert (distanceReal SS b a = distanceReal SS a b) as Hr
    by (unfold distanceReal; rewrite Hd; reflexivity).
  split_and!; try assumption.
  - unfold too_close. rewrite Hr, add_comm. reflexivity.
  - unfold direction. cbn [at0]. rewrite Hd. apply quotient_sub_swap.
  - unfold direction. cbn [at1]. rewrite Hd. apply quotient_sub_swap.
  - reflexivity.
  - unfold force. rewrite Hr. reflexivity.
  - intros H. unfold force. rewrite Hr, H. reflexivity.
  - intros H. unfold force. rewrite Hr, H. reflexivity.
Qed.

Lemma force_symmetry_witness :
  force EarthMoon.SPACE_SCALE EarthMoon.G EarthMoon.Earth EarthMoon.Moon
  = force EarthMoon.SPACE_SCALE EarthMoon.G EarthMoon.Moon EarthMoon.Earth.
Proof.
  destruct (force_symmetry EarthMoon.SPACE_SCALE EarthMoon.G EarthMoon.Earth
              EarthMoon.Moon) as (_ & _ & _ & _ & _ & _ & _ & H & _).
  apply H. vm_compute. reflexivity.
Defined.


(** ** No division by zero in the force computation *)

Lemma square_sum_rounded (dx dy : float) : rounded (dx * dx + dy * dy)%f32.
Proof. apply add_rounded; apply mul_rounded. Qed.

(** The real distance is zero, or its square is not. *)
Lemma real_distance_square (q : float) :
  rounded q ->
  is_zero (sqrt q) = true \/
  (is_zero (sqrt q) = false /\
   is_zero ((sqrt q / Lit.space_scale) * (sqrt q / Lit.space_scale))%f32 = false).
Proof.
  intros Hq. destruct q as [s|[|]| |[|] m e]; try (right; split; reflexivity).
  - left. reflexivity.
  - cbn [rounded] in Hq. pose proof (sqrt_above m e Hq) as Hs.
    right. split; [exact (above_not_zero _ _ _ Hs)|].
    destruct (sqrt (S754_finite false m e)) as [s'|s'| |s' m' e'];
      cbn [above] in Hs; try contradiction.
    + subst s'. reflexivity.
    + destruct Hs as [-> Hmag].
      pose proof (div_space_scale_above false m' e' Hmag) as Hr.
      destruct (S754_finite false m' e' / Lit.space_scale)%f32 as [s''|s''| |s'' m'' e''];
        cbn [above] in Hr; try contradiction.
      * destruct s''; reflexivity.
      * destruct Hr as [_ Hmag'].
        exact (above_not_zero _ _ _ (mul_self_above s'' m'' e'' Hmag')).
Qed.

Lemma zero_distance_is_skipped (s : bool) (r r2 : float) :
  valid r = true -> valid r2 = true ->
  (Lit.zero <? r)%f32 = true -> (Lit.zero <? r2)%f32 = true ->
  (S754_zero s / Lit.space_scale <? r + r2)%f32 = true.
Proof.
  intros Hv Hv2 Hr Hr2.
  apply ltb_zero_positive in Hr, Hr2.
  pose proof (add_positive r r2 Hv Hv2 Hr Hr2) as Hsum.
  rewrite space_scale_eq. cbn [div SFdiv]. apply zero_ltb_positive, Hsum.
Qed.

(** C10.  With the program's space scale, for two bodies whose real radii
    are strictly positive, the two divisions of the force computation are
    never reached with a zero divisor: whenever the computed distance is
    zero the real distance is zero, which is below the positive sum of the
    real radii, so the pair is skipped; and when the pair is not skipped
    neither the distance nor the square of the real distance is zero.  In
    particular two bodies at the same (finite) position have distance
    zero and are skipped. *)
Theorem force_never_divides_by_zero (G : float) (obj obj2 : Object) :
  valid (realRadius obj) = true ->
  valid (realRadius obj2) = true ->
  (Lit.zero <? realRadius obj)%f32 = true ->
  (Lit.zero <? realRadius obj2)%f32 = true ->
  (is_zero (distanceSim obj obj2) = true ->
     is_zero (distanceReal EarthMoon.SPACE_SCALE obj obj2) = true /\
     too_close EarthMoon.SPACE_SCALE obj obj2 = true /\
     pull EarthMoon.SPACE_SCALE G obj obj2 = None) /\
  (too_close EarthMoon.SPACE_SCALE obj obj2 = false ->
     is_zero (distanceSim obj obj2) = false /\
     is_zero (distanceReal EarthMoon.SPACE_SCALE obj obj2
              * distanceReal EarthMoon.SPACE_SCALE obj obj2)%f32 = false) /\
  (position obj2 = position obj ->
   is_finite (at0 (position obj)) = true ->
   is_finite (at1 (position obj)) = true ->
     distanceSim obj obj2 = Lit.zero /\
     distanceReal EarthMoon.SPACE_SCALE obj obj2 = Lit.zero /\
     too_close EarthMoon.SPACE_SCALE obj obj2 = true).
Proof.
  intros Hv Hv2 Hr Hr2.
  assert (is_zero (distanceSim obj obj2) = true ->
          is_zero (distanceReal EarthMoon.SPACE_SCALE obj obj2) = true /\
          too_close EarthMoon.SPACE_SCALE obj obj2 = true) as Hzero.
  { unfold too_close, distanceReal, EarthMoon.SPACE_SCALE.
    destruct (distanceSim obj obj2) as [s| | |]; try discriminate.
    intros _. split; [reflexivity|].
    apply zero_distance_is_skipped; assumption. }
  split_and!.
  - intros Hz. destruct (Hzero Hz) as [H1 H2]. split_and!; try assumption.
    unfold pull. rewrite H2. reflexivity.
  - intros Hfar. unfold distanceReal, distanceSim, distance, EarthMoon.SPACE_SCALE in *.
    set (dx := (at0 (position obj2) - at0 (position obj))%f32) in *.
    set (dy := (at1 (position obj2) - at1 (position obj))%f32) in *.
    destruct (real_distance_square _ (square_sum_rounded dx dy)) as [Hz|Hnz];
      [|exact Hnz].
    destruct (Hzero Hz) as [_ Hclose]. congruence.
  - intros Hp Hf0 Hf1.
    assert (distanceSim obj obj2 = Lit.zero) as Hd.
    { unfold distanceSim, distance. rewrite Hp, !sub_diag by assumption. reflexivity. }
    split_and!; [exact Hd| |].
    + unfold distanceReal. rewrite Hd. reflexivity.
    + apply Hzero. rewrite Hd. reflexivity.
Qed.

Lemma force_never_divides_by_zero_witness :
  is_zero (distanceSim EarthMoon.Moon EarthMoon.Earth) = false /\
  is_zero (distanceReal EarthMoon.SPACE_SCALE EarthMoon.Moon EarthMoon.Earth
           * distanceReal EarthMoon.SPACE_SCALE EarthMoon.Moon EarthMoon.Earth)%f32
    = false.
Proof.
  apply (force_never_divides_by_zero EarthMoon.G EarthMoon.Moon EarthMoon.Earth);
    reflexivity.
Defined.

(** * Further properties of the code *)

(** ** The schedule of a frame *)

Section Schedule.

Variables SS TS G : float.

Lemma advances_refl n w : advances n [] [] w w.
Proof.
  intros Hn. split_and!; [exact Hn|rewrite app_nil_r; reflexivity|].
  exists []. rewrite app_nil_r. split; [reflexivity|constructor].
Qed.

Lemma advances_trans n sl sl' ps ps' w w' w'' :
  advances n sl ps w w' -> advances n sl' ps' w' w'' ->
  advances n (sl ++ sl') (ps ++ ps') w w''.
Proof.
  intros H1 H2 Hn. destruct (H1 Hn) as (Hn' & Hs & l & Hl & Hsub).
  destruct (H2 Hn') as (Hn'' & Hs' & l' & Hl' & Hsub').
  split_and!; [exact Hn''|rewrite Hs', Hs, app_assoc; reflexivity|].
  exists (l ++ l'). split; [rewrite Hl', Hl, app_assoc; reflexivity|].
  apply sublist_app; assumption.
Qed.

Lemma advances_eq n sl sl' ps ps' w w' :
  sl = sl' -> ps = ps' -> advances n sl ps w w' -> advances n sl' ps' w w'.
Proof. intros -> ->. trivial. Qed.

Lemma force_step_advances n i w j :
  advances n [] (if decide (j = i) then [] else [(i, j)]) w (force_step SS TS G i w j).
Proof.
  unfold force_step. destruct (decide (j = i)); [apply advances_refl|].
  assert (advances n [] [(i, j)] w w) as Hsame.
  { intros Hn. destruct (advances_refl n w Hn) as (H1 & H2 & l & Hl & Hsub).
    split_and!; try assumption. exists []. rewrite app_nil_r.
    split; [reflexivity|apply sublist_nil_l]. }
  destruct (objs w !! i) as [obj|]; [|exact Hsame].
  destruct (objs w !! j) as [obj2|]; [|exact Hsame].
  destruct (pull SS G obj obj2) as [[x y]|]; [|exact Hsame].
  intros Hn. cbn [objs calls]. split_and!.
  - rewrite length_insert. exact Hn.
  - unfold slots. rewrite omap_app. cbn. rewrite app_nil_r. reflexivity.
  - exists [(i, j)]. unfold accelerated_pairs. rewrite omap_app. split; reflexivity.
Qed.

Lemma force_steps_advances n i js : forall w,
  advances n [] (pair i <$> filter (fun j => j <> i) js) w
    (foldl (force_step SS TS G i) w js).
Proof.
  induction js as [|j js IH]; intros w; cbn [foldl]; [apply advances_refl|].
  eapply advances_eq; [| |eapply advances_trans; [apply force_step_advances|apply IH]].
  - reflexivity.
  - rewrite filter_cons. destruct (decide (j = i)) as [->|Hj].
    + rewrite decide_False by tauto. reflexivity.
    + rewrite decide_True by assumption. reflexivity.
Qed.

Lemma force_loop_advances n i w :
  advances n [] (body_pairs n i) w (force_loop SS TS G i w).
Proof.
  intros Hn. unfold force_loop. rewrite Hn.
  apply (force_steps_advances n i (seq 0 n) w Hn).
Qed.

Lemma integrate_advances n i w :
  (i < n)%nat -> advances n [SlotUpdatePosition i] [] w (integrate SS TS i w).
Proof.
  intros Hi Hn. unfold integrate.
  destruct (objs w !! i) as [obj|] eqn:Ho.
  2:{ apply lookup_ge_None in Ho. lia. }
  cbn [objs calls]. split_and!.
  - rewrite length_insert. exact Hn.
  - unfold slots. rewrite omap_app. reflexivity.
  - exists []. unfold accelerated_pairs. rewrite omap_app. split; [reflexivity|constructor].
Qed.

Lemma draw_advances n i w :
  (i < n)%nat -> advances n [SlotDrawCircle i] [] w (draw i w).
Proof.
  intros Hi Hn. unfold draw.
  destruct (objs w !! i) as [obj|] eqn:Ho.
  2:{ apply lookup_ge_None in Ho. lia. }
  cbn [objs calls]. split_and!.
  - exact Hn.
  - unfold slots. rewrite omap_app. reflexivity.
  - exists []. unfold accelerated_pairs. rewrite omap_app. split; [reflexivity|constructor].
Qed.

Lemma clamp_advances n i w : advances n [] [] w (clamp i w).
Proof.
  unfold clamp. destruct (objs w !! i) as [obj|]; [|apply advances_refl].
  intros Hn. cbn [objs calls]. split_and!.
  - rewrite length_insert. exact Hn.
  - rewrite app_nil_r. reflexivity.
  - exists []. rewrite app_nil_r. split; [reflexivity|constructor].
Qed.

Lemma collision_step_advances n i w j :
  (i < n)%nat -> (j < n)%nat ->
  advances n (if decide (j = i) then [] else [SlotCheckCollision i j]) []
    w (collision_step i w j).
Proof.
  intros Hi Hj. unfold collision_step.
  destruct (decide (i = j)) as [->|Hij].
  { rewrite decide_True by reflexivity. apply advances_refl. }
  rewrite decide_False by congruence. intros Hn.
  destruct (objs w !! i) as [obj|] eqn:Ho.
  2:{ apply lookup_ge_None in Ho. lia. }
  destruct (objs w !! j) as [other|] eqn:Ho'.
  2:{ apply lookup_ge_None in Ho'. lia. }
  destruct (CheckCollision obj other) as [obj' other']. cbn [objs calls]. split_and!.
  - rewrite !length_insert. exact Hn.
  - unfold slots. rewrite omap_app. reflexivity.
  - exists []. unfold accelerated_pairs. rewrite omap_app. split; [reflexivity|constructor].
Qed.

Lemma collision_steps_advances n i js : forall w,
  (i < n)%nat -> Forall (fun j => (j < n)%nat) js ->
  advances n (SlotCheckCollision i <$> filter (fun j => j <> i) js) []
    w (foldl (collision_step i) w js).
Proof.
  induction js as [|j js IH]; intros w Hi Hjs; cbn [foldl]; [apply advances_refl|].
  apply Forall_cons in Hjs as [Hj Hjs].
  eapply advances_eq;
    [| |eapply advances_trans; [apply collision_step_advances|apply IH]];
    try assumption; [|reflexivity].
  rewrite filter_cons. destruct (decide (j = i)) as [->|Hji].
  - rewrite decide_False by tauto. reflexivity.
  - rewrite decide_True by assumption. reflexivity.
Qed.

Lemma collision_loop_advances n i w :
  (i < n)%nat ->
  advances n (SlotCheckCollision i <$> others n i) [] w (collision_loop i w).
Proof.
  intros Hi Hn. unfold collision_loop. rewrite Hn.
  apply (collision_steps_advances n i (seq 0 n) w Hi); [|exact Hn].
  apply Forall_forall. intros j Hj. apply elem_of_seq in Hj. lia.
Qed.

Lemma body_advances n w i :
  (i < n)%nat -> advances n (body_slots n i) (body_pairs n i) w (body SS TS G w i).
Proof.
  intros Hi. unfold body, body_slots.
  eapply advances_eq;
    [| |eapply advances_trans;
          [apply force_loop_advances
          |eapply advances_trans;
             [apply integrate_advances, Hi
             |eapply advances_trans;
                [apply draw_advances, Hi
                |eapply advances_trans;
                   [apply clamp_advances|apply collision_loop_advances, Hi]]]]].
  - reflexivity.
  - rewrite !app_nil_r. reflexivity.
Qed.

Lemma bodies_advances n ks : forall w,
  Forall (fun i => (i < n)%nat) ks ->
  advances n (flat_map (body_slots n) ks) (flat_map (body_pairs n) ks)
    w (foldl (body SS TS G) w ks).
Proof.
  induction ks as [|i ks IH]; intros w Hks; cbn [foldl flat_map]; [apply advances_refl|].
  apply Forall_cons in Hks as [Hi Hks].
  eapply advances_trans; [apply body_advances, Hi|apply IH, Hks].
Qed.

Lemma tick_advances (os : list Object) :
  advances (length os) (tick_slots (length os)) (all_pairs (length os))
    (World os []) (tick_world SS TS G (World os [])).
Proof.
  unfold tick_world, tick_slots, all_pairs. cbn [objs].
  apply bodies_advances. apply Forall_forall. intros j Hj.
  apply elem_of_seq in Hj. lia.
Qed.

End Schedule.

Lemma flat_map_bind {A B} (f : A -> list B) (l : list A) : flat_map f l = l ≫= f.
Proof. induction l as [|x l IH]; [reflexivity|]. cbn. rewrite IH. reflexivity. Qed.

Lemma elem_of_others n i j : j ∈ others n i <-> (j < n)%nat /\ j <> i.
Proof. unfold others. rewrite list_elem_of_filter, elem_of_seq. intuition lia. Qed.

Lemma elem_of_all_pairs n a b :
  (a, b) ∈ all_pairs n <-> (a < n)%nat /\ (b < n)%nat /\ a <> b.
Proof.
  unfold all_pairs, body_pairs. rewrite flat_map_bind, list_elem_of_bind. split.
  - intros (i & Hab & Hi). apply list_elem_of_fmap in Hab as (j & [= -> ->] & Hj).
    apply elem_of_others in Hj. apply elem_of_seq in Hi. intuition lia.
  - intros (Ha & Hb & Hab). exists a. split.
    + apply list_elem_of_fmap. exists b. split; [reflexivity|].
      apply elem_of_others. auto.
    + apply elem_of_seq. lia.
Qed.

Lemma NoDup_all_pairs n : NoDup (all_pairs n).
Proof.
  unfold all_pairs, body_pairs. rewrite flat_map_bind. apply NoDup_bind.
  - intros i i' [a b] _ _ H H'.
    apply list_elem_of_fmap in H as (j & [= -> ->] & _).
    apply list_elem_of_fmap in H' as (j' & [= -> _] & _). reflexivity.
  - intros i _. apply NoDup_fmap_2; [intros j j' [= ->]; reflexivity|].
    apply NoDup_filter, NoDup_seq.
  - apply NoDup_seq.
Qed.

(** X3.  Whatever the bodies are, the calls of a frame other than
    [accelerate] are, body after body in index order: [updatePosition],
    [DrawCircle], then [CheckCollision] against every other body in index
    order.  The frame keeps the number of bodies. *)
Theorem tick_schedule (SS TS G : float) (os : list Object) :
  slots (tick_calls SS TS G os) = tick_slots (length os) /\
  length (tick SS TS G os) = length os.
Proof.
  destruct (tick_advances SS TS G os eq_refl) as (Hn & Hs & _).
  split; [exact Hs|exact Hn].
Qed.

(** X4.  In a frame [accelerate] is called for a subsequence of the ordered
    pairs of distinct bodies, taken in the order of the two nested loops:
    never for a body and itself, never out of range, and at most once for
    each ordered pair. *)
Theorem accelerate_schedule (SS TS G : float) (os : list Object) :
  sublist (accelerated_pairs (tick_calls SS TS G os)) (all_pairs (length os)) /\
  NoDup (accelerated_pairs (tick_calls SS TS G os)) /\
  (forall i j : nat,
     (i, j) ∈ accelerated_pairs (tick_calls SS TS G os) ->
     i <> j /\ (i < length os)%nat /\ (j < length os)%nat).
Proof.
  destruct (tick_advances SS TS G os eq_refl) as (_ & _ & l & Hl & Hsub).
  cbn [calls accelerated_pairs omap app] in Hl. fold (tick_calls SS TS G os) in Hl.
  fold (accelerated_pairs (tick_calls SS TS G os)) in Hl. rewrite Hl.
  split_and!.
  - exact Hsub.
  - apply (sublist_NoDup _ _ (NoDup_all_pairs _) Hsub).
  - intros i j Hij. apply (elem_of_sublist _ _ _ Hij) in Hsub.
    apply elem_of_all_pairs in Hsub. tauto.
Qed.

(** ** What the phases of a frame keep *)

Section Invariants.

Variables SS TS G : float.

Lemma foldl_keeps {B} (f : Object -> B) (step : world -> nat -> world) js :
  (forall w j, f <$> objs (step w j) = f <$> objs w) ->
  forall w, f <$> objs (foldl step w js) = f <$> objs w.
Proof.
  intros Hstep. induction js as [|j js IH]; intros w; cbn [foldl]; [reflexivity|].
  rewrite IH. apply Hstep.
Qed.

(** Replacing a body by one with the same [f] keeps the [f]s. *)
Lemma insert_keeps {B} (f : Object -> B) (os : list Object) i o o' :
  os !! i = Some o -> f o' = f o -> f <$> <[i := o']> os = f <$> os.
Proof.
  intros Hi Hf. rewrite list_fmap_insert, Hf.
  apply list_insert_id. rewrite list_lookup_fmap, Hi. reflexivity.
Qed.

Lemma boundary_constants o : constants (boundary o) = constants o.
Proof.
  unfold boundary, boundary0, boundary1.
  destruct (below1 o); [|destruct (beyond1 o)];
    (destruct (below0 _); [|destruct (beyond0 _)]); reflexivity.
Qed.

Lemma CheckCollision_constants a b :
  constants (fst (CheckCollision a b)) = constants a /\
  constants (snd (CheckCollision a b)) = constants b.
Proof. unfold CheckCollision. destruct (collides a b); split; reflexivity. Qed.

Lemma force_step_constants i w j :
  constants <$> objs (force_step SS TS G i w j) = constants <$> objs w.
Proof.
  unfold force_step. destruct (decide (j = i)); [reflexivity|].
  destruct (objs w !! i) as [obj|] eqn:Hi; [|reflexivity].
  destruct (objs w !! j) as [obj2|]; [|reflexivity].
  destruct (pull SS G obj obj2) as [[x y]|]; [|reflexivity].
  apply (insert_keeps constants _ _ obj); [exact Hi|reflexivity].
Qed.

Lemma integrate_constants i w :
  constants <$> objs (integrate SS TS i w) = constants <$> objs w.
Proof.
  unfold integrate. destruct (objs w !! i) as [obj|] eqn:Hi; [|reflexivity].
  apply (insert_keeps constants _ _ obj); [exact Hi|reflexivity].
Qed.

Lemma draw_objs i w : objs (draw i w) = objs w.
Proof. unfold draw. destruct (objs w !! i); reflexivity. Qed.

Lemma clamp_constants i w : constants <$> objs (clamp i w) = constants <$> objs w.
Proof.
  unfold clamp. destruct (objs w !! i) as [obj|] eqn:Hi; [|reflexivity].
  apply (insert_keeps constants _ _ obj); [exact Hi|apply boundary_constants].
Qed.

Lemma collision_step_constants i w j :
  constants <$> objs (collision_step i w j) = constants <$> objs w.
Proof.
  unfold collision_step. destruct (decide (i = j)); [reflexivity|].
  destruct (objs w !! i) as [obj|] eqn:Hi; [|reflexivity].
  destruct (objs w !! j) as [other|] eqn:Hj; [|reflexivity].
  destruct (CheckCollision_constants obj other) as [H1 H2].
  destruct (CheckCollision obj other) as [obj' other']. cbn [fst snd objs] in *.
  rewrite (insert_keeps constants _ j other).
  - apply (insert_keeps constants _ _ obj); assumption.
  - rewrite list_lookup_insert_ne by assumption. exact Hj.
  - exact H2.
Qed.

Lemma body_constants w i :
  constants <$> objs (body SS TS G w i) = constants <$> objs w.
Proof.
  unfold body, collision_loop, force_loop.
  rewrite (foldl_keeps constants) by apply collision_step_constants.
  rewrite clamp_constants, draw_objs, integrate_constants.
  apply (foldl_keeps constants), force_step_constants.
Qed.

Lemma tick_constants (os : list Object) :
  constants <$> tick SS TS G os = constants <$> os.
Proof.
  unfold tick, tick_world.
  apply (foldl_keeps constants (body SS TS G) _ body_constants (World os [])).
Qed.

(** X1.  A run never creates or destroys a body and never changes a
    radius, a mass or a real radius: after any number of frames the bodies
    are as many as at the start, each with its three constants. *)
Theorem frames_keep_constants (n : nat) (s : sim) :
  constants <$> bodies (frames SS TS G n s) = constants <$> bodies s /\
  length (bodies (frames SS TS G n s)) = length (bodies s).
Proof.
  assert (constants <$> bodies (frames SS TS G n s) = constants <$> bodies s) as H.
  { revert s. induction n as [|n IH]; intros s; cbn [frames]; [reflexivity|].
    rewrite IH. apply tick_constants. }
  split; [exact H|].
  rewrite <- (length_fmap constants), H, length_fmap. reflexivity.
Qed.

(** *** The force loop *)

Lemma force_step_others i w j k :
  k <> i -> objs (force_step SS TS G i w j) !! k = objs w !! k.
Proof.
  intros Hk. unfold force_step. destruct (decide (j = i)); [reflexivity|].
  destruct (objs w !! i) as [obj|]; [|reflexivity].
  destruct (objs w !! j) as [obj2|]; [|reflexivity].
  destruct (pull SS G obj obj2) as [[x y]|]; [|reflexivity].
  cbn [objs]. apply list_lookup_insert_ne. congruence.
Qed.

Lemma force_step_position i w j :
  position <$> objs (force_step SS TS G i w j) = position <$> objs w.
Proof.
  unfold force_step. destruct (decide (j = i)); [reflexivity|].
  destruct (objs w !! i) as [obj|] eqn:Hi; [|reflexivity].
  destruct (objs w !! j) as [obj2|]; [|reflexivity].
  destruct (pull SS G obj obj2) as [[x y]|]; [|reflexivity].
  apply (insert_keeps position _ _ obj); [exact Hi|reflexivity].
Qed.

Lemma force_loop_others i w k :
  k <> i -> objs (force_loop SS TS G i w) !! k = objs w !! k.
Proof.
  intros Hk. unfold force_loop. generalize (seq 0 (length (objs w))) as js.
  intros js. revert w. induction js as [|j js IH]; intros w; cbn [foldl]; [reflexivity|].
  rewrite IH. apply force_step_others, Hk.
Qed.

(** X2.  The force loop of body [i] writes the velocity of body [i] and
    nothing else: every other body is exactly as before, and no position,
    radius, mass or real radius changes. *)
Theorem force_loop_writes_own_velocity (i : nat) (w : world) :
  (forall k : nat, k <> i -> objs (force_loop SS TS G i w) !! k = objs w !! k) /\
  position <$> objs (force_loop SS TS G i w) = position <$> objs w /\
  constants <$> objs (force_loop SS TS G i w) = constants <$> objs w.
Proof.
  split_and!.
  - intros k Hk. apply force_loop_others, Hk.
  - apply (foldl_keeps position), force_step_position.
  - apply (foldl_keeps constants), force_step_constants.
Qed.

(** X5.  If every other body is within the minimum separation of body [i],
    the force loop of body [i] does nothing at all: no body changes and no
    call is made. *)
Theorem force_loop_all_close (i : nat) (w : world) :
  (forall j : nat, j <> i -> (j < length (objs w))%nat ->
     too_close_at SS (objs w) i j = true) ->
  force_loop SS TS G i w = w.
Proof.
  intros H. unfold force_loop.
  assert (forall js, Forall (fun j => (j < length (objs w))%nat) js ->
                     foldl (force_step SS TS G i) w js = w) as Hjs.
  { induction js as [|j js IH]; intros Hlt; [reflexivity|]. cbn [foldl].
    apply Forall_cons in Hlt as [Hj Hlt].
    assert (force_step SS TS G i w j = w) as ->.
    { destruct (decide (j = i)) as [->|Hji].
      - unfold force_step. rewrite decide_True by reflexivity. reflexivity.
      - apply force_step_skip, H; assumption. }
    apply IH, Hlt. }
  apply Hjs. apply Forall_forall. intros j Hj. apply elem_of_seq in Hj. lia.
Qed.


(** *** The iteration of one body *)

Lemma place_position (os os' : list Object) k :
  place <$> os = place <$> os' -> position <$> (os !! k) = position <$> (os' !! k).
Proof.
  intros H.
  assert (place <$> (os !! k) = place <$> (os' !! k)) as Hk
    by (rewrite <- !list_lookup_fmap, H; reflexivity).
  destruct (os !! k) as [o|], (os' !! k) as [o'|]; try discriminate; [|reflexivity].
  cbn in *. injection Hk as Hp _. rewrite Hp. reflexivity.
Qed.

(** X6.  The iteration of body [i] never moves another body: the position
    of every other body is the same before and after it. *)
Theorem body_moves_itself_only (w : world) (i k : nat) :
  k <> i ->
  position <$> (objs (body SS TS G w i) !! k) = position <$> (objs w !! k).
Proof.
  intros Hk. unfold body.
  rewrite (place_position _ _ k (collision_loop_place _ _)).
  assert (forall w', objs (clamp i w') !! k = objs w' !! k) as Hclamp.
  { intros w'. unfold clamp. destruct (objs w' !! i); [|reflexivity].
    cbn [objs]. apply list_lookup_insert_ne. congruence. }
  assert (forall w', objs (integrate SS TS i w') !! k = objs w' !! k) as Hint.
  { intros w'. unfold integrate. destruct (objs w' !! i); [|reflexivity].
    cbn [objs]. apply list_lookup_insert_ne. congruence. }
  rewrite Hclamp, draw_objs, Hint, force_loop_others by assumption. reflexivity.
Qed.

End Invariants.

Lemma force_loop_all_close_witness :
  force_loop EarthMoon.SPACE_SCALE EarthMoon.TIME_SCALE EarthMoon.G 0
    (World [EarthMoon.Earth; Examples.Earth2] [])
  = World [EarthMoon.Earth; Examples.Earth2] [].
Proof.
  apply (force_loop_all_close EarthMoon.SPACE_SCALE EarthMoon.TIME_SCALE
           EarthMoon.G 0 (World [EarthMoon.Earth; Examples.Earth2] [])).
  intros j Hj Hlt. cbn in Hlt.
  destruct j as [|[|j]]; [congruence|vm_compute; reflexivity|lia].
Defined.

Lemma body_moves_itself_only_witness :
  position <$> (objs (body EarthMoon.SPACE_SCALE EarthMoon.TIME_SCALE EarthMoon.G
                        (World EarthMoon.objs []) 0) !! 1%nat)
  = position <$> (objs (World EarthMoon.objs []) !! 1%nat).
Proof.
  apply (body_moves_itself_only EarthMoon.SPACE_SCALE EarthMoon.TIME_SCALE
           EarthMoon.G (World EarthMoon.objs []) 0 1). lia.
Defined.

(** ** [CheckCollision] and the boundary as operations *)

Lemma collides_sym (a b : Object) : collides a b = collides b a.
Proof. unfold collides. rewrite (distance_sym a b), add_comm. reflexivity. Qed.

(** X7.  [CheckCollision] does not depend on which of the two bodies it is
    called on: calling it on [other] with [this] as argument gives the same
    two bodies. *)
Theorem CheckCollision_symmetric (this other : Object) :
  CheckCollision other this
    = (snd (CheckCollision this other), fst (CheckCollision this other)).
Proof.
  unfold CheckCollision. rewrite (collides_sym other this).
  destruct (collides this other); reflexivity.
Qed.

(** X8.  [CheckCollision] undoes itself: applied to the two bodies it just
    returned, it returns the two original bodies, since the test reads
    positions and radii only and negating a velocity twice restores it. *)
Theorem CheckCollision_twice (this other : Object) :
  valid_vec (velocity this) = true ->
  valid_vec (velocity other) = true ->
  CheckCollision (fst (CheckCollision this other)) (snd (CheckCollision this other))
    = (this, other).
Proof.
  intros Hv Hv'. unfold CheckCollision at 2 3.
  destruct (collides this other) eqn:Hc; cbn [fst snd].
  - unfold CheckCollision.
    change (collides (set_velocity (reverse (velocity this)) this)
                     (set_velocity (reverse (velocity other)) other))
      with (collides this other).
    rewrite Hc. cbn [velocity set_velocity].
    rewrite !reverse_reverse by assumption.
    destruct this, other. reflexivity.
  - unfold CheckCollision. rewrite Hc. reflexivity.
Qed.

Lemma CheckCollision_twice_witness :
  CheckCollision
    (fst (CheckCollision EarthMoon.Earth Examples.Earth2))
    (snd (CheckCollision EarthMoon.Earth Examples.Earth2))
  = (EarthMoon.Earth, Examples.Earth2).
Proof.
  apply (CheckCollision_twice EarthMoon.Earth Examples.Earth2); reflexivity.
Defined.

(** X9.  The clamps of the two axes commute: handling axis 0 before axis 1
    gives the same body as the order the program uses. *)
Theorem boundary_axes_commute (obj : Object) :
  boundary1 (boundary0 obj) = boundary0 (boundary1 obj).
Proof.
  destruct obj as [[p0 p1] [v0 v1] r m rr].
  unfold boundary0, boundary1, below0, beyond0, below1, beyond1.
  cbn [position velocity radius mass realRadius at0 at1].
  repeat first
    [ progress cbn [position velocity radius mass realRadius at0 at1]
    | match goal with
      | H : ?t = _ |- context [if ?t then _ else _] => rewrite H
      end
    | match goal with
      | |- context [if ?b then _ else _] =>
          lazymatch b with
          | context [if _ then _ else _] => fail
          | _ => destruct b eqn:?
          end
      end ];
    reflexivity.
Qed.

(** *** Magnitudes of velocities *)

Lemma abs_opp (x : float) : SFabs (opp x) = SFabs x.
Proof. destruct x; reflexivity. Qed.

Lemma abs_vec_opp (v : vec2) : abs_vec (opp_vec v) = abs_vec v.
Proof. unfold abs_vec, opp_vec. cbn [at0 at1]. rewrite !abs_opp. reflexivity. Qed.

Lemma valid_vec_opp (v : vec2) : valid_vec (opp_vec v) = valid_vec v.
Proof. unfold valid_vec, opp_vec. cbn [at0 at1]. rewrite !valid_opp. reflexivity. Qed.

Lemma boundary_speed (o : Object) :
  speed (boundary o) = speed o /\
  valid_vec (velocity (boundary o)) = valid_vec (velocity o).
Proof.
  unfold speed, abs_vec, valid_vec, boundary, boundary0, boundary1.
  destruct (below1 o); [|destruct (beyond1 o)];
    (destruct (below0 _); [|destruct (beyond0 _)]);
    cbn [velocity at0 at1]; rewrite ?abs_opp, ?valid_opp; split; reflexivity.
Qed.

Lemma CheckCollision_speed (a b : Object) :
  valid_vec (velocity a) = true -> valid_vec (velocity b) = true ->
  (speed (fst (CheckCollision a b)) = speed a /\
   valid_vec (velocity (fst (CheckCollision a b))) = true) /\
  (speed (snd (CheckCollision a b)) = speed b /\
   valid_vec (velocity (snd (CheckCollision a b))) = true).
Proof.
  intros Ha Hb. unfold CheckCollision, speed.
  destruct (collides a b); cbn [fst snd velocity set_velocity]; [|auto].
  rewrite !reverse_opp, !abs_vec_opp, !valid_vec_opp by assumption. auto.
Qed.

Section Speeds.

Variables SS TS G : float.

(** Velocities that are binary32 data. *)
Let sound (o : Object) : Prop := valid_vec (velocity o) = true.

Lemma clamp_speed i w :
  Forall sound (objs w) ->
  speed <$> objs (clamp i w) = speed <$> objs w /\ Forall sound (objs (clamp i w)).
Proof.
  intros Hs. unfold clamp. destruct (objs w !! i) as [obj|] eqn:Hi; [|auto].
  destruct (boundary_speed obj) as [H1 H2]. cbn [objs]. split.
  - apply (insert_keeps speed _ _ obj); assumption.
  - apply Forall_insert; [assumption|]. unfold sound. rewrite H2.
    apply (Forall_lookup_1 _ _ _ _ Hs Hi).
Qed.

Lemma collision_step_speed i w j :
  Forall sound (objs w) ->
  speed <$> objs (collision_step i w j) = speed <$> objs w /\
  Forall sound (objs (collision_step i w j)).
Proof.
  intros Hs. unfold collision_step. destruct (decide (i = j)); [auto|].
  destruct (objs w !! i) as [obj|] eqn:Hi; [|auto].
  destruct (objs w !! j) as [other|] eqn:Hj; [|auto].
  destruct (CheckCollision_speed obj other) as [[H1 V1] [H2 V2]];
    [apply (Forall_lookup_1 _ _ _ _ Hs Hi)|apply (Forall_lookup_1 _ _ _ _ Hs Hj)|].
  destruct (CheckCollision obj other) as [obj' other']. cbn [fst snd objs] in *. split.
  - rewrite (insert_keeps speed _ j other).
    + apply (insert_keeps speed _ _ obj); assumption.
    + rewrite list_lookup_insert_ne by assumption. exact Hj.
    + exact H2.
  - repeat apply Forall_insert; assumption.
Qed.

Lemma collision_steps_speed i js : forall w,
  Forall sound (objs w) ->
  speed <$> objs (foldl (collision_step i) w js) = speed <$> objs w /\
  Forall sound (objs (foldl (collision_step i) w js)).
Proof.
  induction js as [|j js IH]; intros w Hs; cbn [foldl]; [auto|].
  destruct (collision_step_speed i w j Hs) as [H1 H2].
  destruct (IH _ H2) as [H3 H4]. split; [congruence|assumption].
Qed.

(** X10.  Only [accelerate] changes the magnitude of a velocity: from the
    end of the force loop of a body to the end of its iteration
    (integration, boundary reflection, collision response), the absolute
    value of every velocity component of every body stays the same. *)
Theorem body_speeds (w : world) (i : nat) :
  Forall (fun o => valid_vec (velocity o) = true) (objs (force_loop SS TS G i w)) ->
  speed <$> objs (body SS TS G w i) = speed <$> objs (force_loop SS TS G i w).
Proof.
  intros Hs. unfold body, collision_loop.
  set (w1 := force_loop SS TS G i w) in *.
  assert (speed <$> objs (integrate SS TS i w1) = speed <$> objs w1 /\
          Forall sound (objs (integrate SS TS i w1))) as [H1 V1].
  { unfold integrate. destruct (objs w1 !! i) as [obj|] eqn:Hi; [|auto].
    cbn [objs]. split.
    - apply (insert_keeps speed _ _ obj); [exact Hi|reflexivity].
    - apply Forall_insert; [assumption|]. apply (Forall_lookup_1 _ _ _ _ Hs Hi). }
  rewrite <- (draw_objs i) in H1, V1.
  destruct (clamp_speed i _ V1) as [H2 V2].
  destruct (collision_steps_speed i
              (seq 0 (length (objs (clamp i (draw i (integrate SS TS i w1))))))
              _ V2) as [H3 _].
  congruence.
Qed.

End Speeds.

Lemma body_speeds_witness :
  speed <$> objs (body EarthMoon.SPACE_SCALE EarthMoon.TIME_SCALE EarthMoon.G
                    (World [EarthMoon.Earth; Examples.Earth2; Examples.corner] []) 2)
  = speed <$> objs (force_loop EarthMoon.SPACE_SCALE EarthMoon.TIME_SCALE EarthMoon.G 2
                      (World [EarthMoon.Earth; Examples.Earth2; Examples.corner] [])).
Proof.
  apply (body_speeds EarthMoon.SPACE_SCALE EarthMoon.TIME_SCALE EarthMoon.G
           (World [EarthMoon.Earth; Examples.Earth2; Examples.corner] []) 2).
  vm_compute. repeat constructor.
Defined.

(** ** Degenerate numbers in the force computation *)

Lemma add_nan_r (x : float) : (x + S754_nan)%f32 = S754_nan.
Proof. destruct x; reflexivity. Qed.

Lemma sub_nan_r (x : float) : (x - S754_nan)%f32 = S754_nan.
Proof. destruct x; reflexivity. Qed.

Lemma mul_nan_l (x : float) : (S754_nan * x)%f32 = S754_nan.
Proof. reflexivity. Qed.

Lemma mul_nan_r (x : float) : (x * S754_nan)%f32 = S754_nan.
Proof. destruct x; reflexivity. Qed.

Lemma div_nan_r (x : float) : (x / S754_nan)%f32 = S754_nan.
Proof. destruct x; reflexivity. Qed.

Lemma is_nan_eq (x : float) : is_nan x = true -> x = S754_nan.
Proof. destruct x; try discriminate. reflexivity. Qed.

Lemma distance_nan_r (a b : Object) :
  has_nan (position b) = true -> distance a b = S754_nan.
Proof.
  unfold has_nan, distance. intros H. apply orb_prop in H as [H|H];
    apply is_nan_eq in H; rewrite H.
  - reflexivity.
  - cbn. rewrite add_nan_r. reflexivity.
Qed.

Lemma distance_nan (a b : Object) :
  has_nan (position a) = true \/ has_nan (position b) = true ->
  distance a b = S754_nan.
Proof.
  intros [H|H]; [rewrite distance_sym|]; apply distance_nan_r, H.
Qed.

(** X11.  A NaN is contagious.  If a position component of either body of a
    pair is NaN, the distance is NaN: the two bodies are not found
    colliding and the pair is not skipped, [accelerate] is called with
    (NaN, NaN) and leaves both velocity components NaN, and
    [updatePosition] then makes both position components NaN. *)
Theorem nan_position_spreads (SS TS G : float) (obj obj2 : Object) :
  has_nan (position obj) = true \/ has_nan (position obj2) = true ->
  collides obj obj2 = false /\
  too_close SS obj obj2 = false /\
  pull SS G obj obj2 = Some (S754_nan, S754_nan) /\
  velocity (accelerate TS obj S754_nan S754_nan) = nan_vec /\
  position (updatePosition SS TS (accelerate TS obj S754_nan S754_nan)) = nan_vec.
Proof.
  intros H. pose proof (distance_nan obj obj2 H) as Hd.
  assert (too_close SS obj obj2 = false) as Hfar
    by (unfold too_close, distanceReal, distanceSim; rewrite Hd; reflexivity).
  split_and!.
  - unfold collides. rewrite Hd. reflexivity.
  - exact Hfar.
  - unfold pull. rewrite Hfar.
    unfold direction, distanceSim. rewrite Hd, !div_nan_r. cbn [at0 at1].
    rewrite !mul_nan_r. reflexivity.
  - unfold accelerate, nan_vec. cbn [velocity set_velocity].
    rewrite !mul_nan_l, !add_nan_r. reflexivity.
  - unfold updatePosition, accelerate, displacement, nan_vec.
    cbn [position velocity set_velocity set_position at0 at1].
    repeat (progress rewrite ?mul_nan_l, ?add_nan_r). reflexivity.
Qed.

Lemma nan_position_spreads_witness :
  pull EarthMoon.SPACE_SCALE EarthMoon.G EarthMoon.Earth
    (set_position nan_vec EarthMoon.Moon)
  = Some (S754_nan, S754_nan).
Proof.
  apply (nan_position_spreads EarthMoon.SPACE_SCALE EarthMoon.TIME_SCALE EarthMoon.G
           EarthMoon.Earth (set_position nan_vec EarthMoon.Moon)).
  right. reflexivity.
Defined.

(** X12.  The mass of the accelerated body is not guarded: for a body of
    mass zero the acceleration is NaN whatever the other body, the
    distance and the constants are, so that a pair that is not skipped
    leaves its velocity NaN. *)
Theorem zero_mass_acceleration (SS TS G : float) (obj obj2 : Object) :
  is_zero (mass obj) = true ->
  acceleration SS G obj obj2 = S754_nan /\
  (too_close SS obj obj2 = false ->
   pull SS G obj obj2 = Some (S754_nan, S754_nan) /\
   forall x y : float,
     pull SS G obj obj2 = Some (x, y) -> velocity (accelerate TS obj x y) = nan_vec).
Proof.
  intros Hm.
  assert (acceleration SS G obj obj2 = S754_nan) as Ha.
  { unfold acceleration, force.
    generalize (distanceReal SS obj obj2 * distanceReal SS obj obj2)%f32 as D.
    destruct (mass obj) as [s| | |]; try discriminate.
    intros D. destruct G, (mass obj2), D; reflexivity. }
  split; [exact Ha|]. intros Hfar.
  assert (pull SS G obj obj2 = Some (S754_nan, S754_nan)) as Hp
    by (unfold pull; rewrite Hfar, Ha; reflexivity).
  split; [exact Hp|]. intros x y Hxy. rewrite Hp in Hxy. injection Hxy as <- <-.
  unfold accelerate, nan_vec. cbn [velocity set_velocity].
  rewrite !mul_nan_l, !add_nan_r. reflexivity.
Qed.

Lemma zero_mass_acceleration_witness :
  acceleration EarthMoon.SPACE_SCALE EarthMoon.G
    (mkObject (position EarthMoon.Moon) (velocity EarthMoon.Moon)
       (radius EarthMoon.Moon) Lit.zero (realRadius EarthMoon.Moon))
    EarthMoon.Earth
  = S754_nan.
Proof.
  apply (zero_mass_acceleration EarthMoon.SPACE_SCALE EarthMoon.TIME_SCALE EarthMoon.G
           (mkObject (position EarthMoon.Moon) (velocity EarthMoon.Moon)
              (radius EarthMoon.Moon) Lit.zero (realRadius EarthMoon.Moon))
           EarthMoon.Earth).
  reflexivity.
Defined.

(** X13.  The minimum-separation test only guards bodies with a positive
    real radius.  For two bodies at the same finite position whose real
    radii are both zero, with a finite non-zero space scale, the distance
    zero is not below the zero sum, the pair is not skipped, the direction
    is 0/0 and [accelerate] is called with (NaN, NaN). *)
Theorem coincident_points_divide_by_zero (SS G : float) (obj obj2 : Object) :
  is_finite SS = true -> is_zero SS = false ->
  position obj2 = position obj ->
  is_finite (at0 (position obj)) = true ->
  is_finite (at1 (position obj)) = true ->
  is_zero (realRadius obj) = true ->
  is_zero (realRadius obj2) = true ->
  distanceSim obj obj2 = Lit.zero /\
  too_close SS obj obj2 = false /\
  direction obj obj2 = nan_vec /\
  pull SS G obj obj2 = Some (S754_nan, S754_nan).
Proof.
  intros HS HS' Hp Hf0 Hf1 Hr Hr2.
  assert (distanceSim obj obj2 = Lit.zero) as Hd.
  { unfold distanceSim, distance. rewrite Hp, !sub_diag by assumption. reflexivity. }
  assert (too_close SS obj obj2 = false) as Hfar.
  { unfold too_close, distanceReal. rewrite Hd.
    destruct (realRadius obj) as [s| | |]; try discriminate.
    destruct (realRadius obj2) as [s2| | |]; try discriminate.
    destruct SS as [?| | |? ? ?]; try discriminate. destruct s, s2; reflexivity. }
  assert (direction obj obj2 = nan_vec) as Hdir.
  { unfold direction. rewrite Hd, Hp, !sub_diag by assumption. reflexivity. }
  split_and!; try assumption.
  unfold pull. rewrite Hfar, Hdir. cbn [at0 at1 nan_vec].
  rewrite !mul_nan_r. reflexivity.
Qed.

Lemma coincident_points_divide_by_zero_witness :
  pull EarthMoon.SPACE_SCALE EarthMoon.G
    (mkObject (position EarthMoon.Moon) (velocity EarthMoon.Moon)
       (radius EarthMoon.Moon) (mass EarthMoon.Moon) Lit.zero)
    (mkObject (position EarthMoon.Moon) (velocity EarthMoon.Earth)
       (radius EarthMoon.Earth) (mass EarthMoon.Earth) Lit.zero)
  = Some (S754_nan, S754_nan).
Proof.
  apply (coincident_points_divide_by_zero EarthMoon.SPACE_SCALE EarthMoon.G
           (mkObject (position EarthMoon.Moon) (velocity EarthMoon.Moon)
              (radius EarthMoon.Moon) (mass EarthMoon.Moon) Lit.zero)
           (mkObject (position EarthMoon.Moon) (velocity EarthMoon.Earth)
              (radius EarthMoon.Earth) (mass EarthMoon.Earth) Lit.zero));
    reflexivity.
Defined.

(** ** [DrawCircle] *)

Lemma M_PI_eq : F64.M_PI = S754_finite false 7074237752028440 (-51).
Proof. vm_compute. reflexivity. Qed.

Lemma Zdigits2_succ m : 0 < m -> Zdigits2 (m + 1) <= Zdigits2 m + 1.
Proof.
  intros Hm. destruct (Zdigits2_bounds m Hm) as [_ Hu].
  pose proof (Zdigits2_pos m Hm).
  apply Zdigits2_le; [lia|lia|].
  rewrite Z.pow_add_r by lia. change (2 ^ 1) with 2. lia.
Qed.

Lemma round_nearest_even_le m l : round_nearest_even m l <= m + 1.
Proof.
  destruct l as [|[ | | ]]; cbn [round_nearest_even]; try lia.
  destruct (Z.even m); lia.
Qed.

(** A number of moderate magnitude is rounded to a finite number. *)
Lemma binary_round_aux_finite s m e l :
  0 < m -> -148 <= Zdigits2 m + e <= 104 ->
  exists m' e', binary_round_aux prec emax s m e l = S754_finite s m' e'.
Proof.
  intros Hm Hmag. unfold binary_round_aux.
  destruct (shr_fexp_mag m e l Hm ltac:(lia)) as [H1 H2].
  destruct (shr_fexp prec emax m e l) as [mrs' e']. cbn [fst snd] in H1, H2.
  set (m1 := round_nearest_even (shr_m mrs') (loc_of_shr_record mrs')).
  assert (shr_m mrs' <= m1 <= shr_m mrs' + 1) as Hm1
    by (split; [apply round_nearest_even_ge; assumption|apply round_nearest_even_le]).
  assert (Zdigits2 (shr_m mrs') <= Zdigits2 m1 <= Zdigits2 (shr_m mrs') + 1) as Hd1.
  { split; [apply Zdigits2_mono; lia|].
    etransitivity; [apply (Zdigits2_mono m1 (shr_m mrs' + 1)); lia|].
    apply Zdigits2_succ, H1. }
  destruct (shr_fexp_mag m1 e' loc_Exact) as [H3 H4]; [lia|lia|].
  destruct (shr_fexp prec emax m1 e' loc_Exact) as [mrs'' e'']. cbn [fst snd] in H3, H4.
  destruct (shr_m mrs'') as [|p|p]; try lia.
  cbn [Zdigits2] in H4.
  assert ((e'' <=? emax - prec) = true) as ->
    by (apply Z.leb_le; unfold emax, prec; lia).
  eauto.
Qed.

Lemma of_Z_positive (n : Z) :
  0 < n < 2 ^ 31 -> exists m e, of_Z n = S754_finite false m e.
Proof.
  intros Hn. destruct n as [|p|p]; try lia.
  unfold of_Z. cbn [binary_normalize]. unfold binary_round.
  pose proof (shl_align_mag p 0 (fexp prec emax (Z.pos (digits2_pos p) + 0))) as H.
  destruct (shl_align _ _ _) as [mz ez]. cbn [fst snd] in H.
  assert (Zdigits2 (Z.pos p) <= 31) as Hd by (apply Zdigits2_le; lia).
  cbn [Zdigits2] in Hd.
  apply binary_round_aux_finite; cbn [Zdigits2]; lia.
Qed.

(** A finite number divided by itself is one. *)
Lemma div_self s m e : (S754_finite s m e / S754_finite s m e)%f32 = Lit.one.
Proof.
  unfold div. cbn [SFdiv]. unfold SFdiv_core_binary.
  replace (Zdigits2 (Z.pos m) + e - (Zdigits2 (Z.pos m) + e)) with 0 by lia.
  rewrite Z.sub_diag.
  change (Z.min (fexp prec emax 0) 0) with (-24).
  change (0 - -24) with 24.
  cbv iota.
  assert (Z.div_eucl (Z.shiftl (Z.pos m) 24) (Z.pos m) = (2 ^ 24, 0)) as ->.
  { rewrite Z.shiftl_mul_pow2 by lia.
    pose proof (Z.div_eucl_eq (Z.pos m * 2 ^ 24) (Z.pos m) ltac:(lia)) as Heq.
    pose proof (Z.mod_pos_bound (Z.pos m * 2 ^ 24) (Z.pos m) ltac:(lia)) as Hb.
    unfold Z.modulo in Hb.
    destruct (Z.div_eucl (Z.pos m * 2 ^ 24) (Z.pos m)) as [q r].
    assert (q = 2 ^ 24) by nia. subst q. f_equal. lia. }
  assert (new_location (Z.pos m) 0 = loc_Exact) as ->
    by (unfold new_location, new_location_even, new_location_odd;
        destruct (Z.even (Z.pos m)); reflexivity).
  rewrite xorb_nilpotent. vm_compute. reflexivity.
Qed.

Section DrawCircleFacts.

Variables cos sin : float -> float.

(** X14.  For every [int] resolution below [INT_MAX], [DrawCircle] issues
    one triangle fan: [glBegin], the centre, one vertex for each [i] from 0
    to [res] in order, and [glEnd]; that is [res + 2] vertices when [res]
    is not negative, and the centre alone when it is. *)
Theorem DrawCircle_fan (centerX centerY r : float) (res : Z) :
  INT_MIN <= res < INT_MAX ->
  exists fan : list gl_call,
    DrawCircle cos sin centerX centerY r res = Some fan /\
    length fan = (Z.to_nat (res + 1) + 3)%nat /\
    fan !! 0%nat = Some GlBeginTriangleFan /\
    fan !! 1%nat = Some (GlVertex2f centerX centerY) /\
    (forall k : nat,
       Z.of_nat k <= res ->
       fan !! (2 + k)%nat
         = Some (rim_vertex cos sin centerX centerY r res (Z.of_nat k))) /\
    fan !! (Z.to_nat (res + 1) + 2)%nat = Some GlEnd /\
    (res < 0 -> fan = [GlBeginTriangleFan; GlVertex2f centerX centerY; GlEnd]).
Proof.
  intros Hint. unfold DrawCircle. rewrite decide_True by exact Hint.
  eexists. split; [reflexivity|]. split_and!.
  - cbn [app length]. rewrite length_app, length_fmap, length_seqZ. cbn. lia.
  - reflexivity.
  - reflexivity.
  - intros k Hk. rewrite lookup_app_r by (cbn [length]; lia).
    cbn [length]. replace (2 + k - 2)%nat with k by lia.
    rewrite lookup_app_l by (rewrite length_fmap, length_seqZ; lia).
    rewrite list_lookup_fmap, lookup_seqZ_lt by lia. reflexivity.
  - rewrite lookup_app_r by (cbn [length]; lia).
    cbn [length]. replace (Z.to_nat (res + 1) + 2 - 2)%nat with (Z.to_nat (res + 1)) by lia.
    rewrite lookup_app_r by (rewrite length_fmap, length_seqZ; lia).
    rewrite length_fmap, length_seqZ, Nat.sub_diag. reflexivity.
  - intros Hres. rewrite seqZ_nil by lia. reflexivity.
Qed.

(** X15.  For every positive resolution the fan starts at the angle 0 and
    ends at the [float] nearest to the [double] 2 pi (6.2831855), so the
    last vertex is computed from an angle that differs from a full turn by
    the rounding of 2 pi.  With resolution 0 the quotient is 0/0 and the
    angle passed to [cos] and [sin] is NaN. *)
Theorem DrawCircle_angles (res : Z) :
  (0 < res < 2 ^ 31 ->
   angle res 0 = Lit.zero /\
   angle res res = S754_finite false 13176795 (-21)) /\
  angle 0 0 = S754_nan.
Proof.
  split; [|vm_compute; reflexivity].
  intros Hres. destruct (of_Z_positive res Hres) as (m & e & Hm).
  unfold angle. rewrite Hm, div_self. split; vm_compute; reflexivity.
Qed.

End DrawCircleFacts.

Lemma DrawCircle_angles_witness :
  angle 50 0 = Lit.zero /\ angle 50 50 = S754_finite false 13176795 (-21).
Proof.
  apply (DrawCircle_angles 50). cbn. lia.
Defined.

Lemma DrawCircle_fan_witness :
  exists fan : list gl_call,
    DrawCircle id id Lit.zero Lit.zero Lit.one 50 = Some fan /\
    fan !! 52%nat = Some (rim_vertex id id Lit.zero Lit.zero Lit.one 50 50).
Proof.
  destruct (DrawCircle_fan id id Lit.zero Lit.zero Lit.one 50)
    as (fan & Hfan & _ & _ & _ & Hk & _).
  - unfold INT_MIN, INT_MAX. lia.
  - exists fan. split; [exact Hfan|]. apply (Hk 50%nat). lia.
Defined.

(** ** [StartGLFW] and [main] *)

(** X16.  [StartGLFW] returns a window exactly when [glfwInit], the
    creation of the window and the GLAD loader all succeed, and then
    prints no error; otherwise it returns [nullptr] after one error
    message.  It calls [glfwTerminate] only when the window cannot be
    created: when the GLAD loader fails it returns with GLFW initialised
    and the window made current. *)
Theorem StartGLFW_outcomes (p : platform) :
  (forall window : nat,
     fst (StartGLFW p) = Some window <->
     init_ok p = true /\ created p = Some window /\ glad_ok p = true) /\
  (fst (StartGLFW p) = None <-> exists m, In (Cerr m) (snd (StartGLFW p))) /\
  (In GlfwTerminate (snd (StartGLFW p)) <-> init_ok p = true /\ created p = None) /\
  (forall window : nat,
     init_ok p = true -> created p = Some window -> glad_ok p = false ->
     StartGLFW p
       = (None, [GlfwInit; GlfwCreateWindow 400 300; GlfwMakeContextCurrent window;
                 GladLoadGLLoader; Cerr FailedGLAD])).
Proof.
  destruct p as [i c g n]. unfold StartGLFW. cbn [init_ok created glad_ok].
  destruct i; cbn [negb]; [destruct c as [w|]; [destruct g; cbn [negb]|]|];
    cbn [fst snd];
    (split_and!;
     [ intros window; intuition congruence
     | split; [try discriminate; intros _; eexists; cbn [In]; eauto 8
              |try reflexivity; intros [m Hm]; cbn [In] in Hm; intuition discriminate]
     | cbn [In]; intuition (discriminate || congruence)
     | intros window; congruence ]).
Qed.

Lemma StartGLFW_outcomes_witness :
  StartGLFW (Platform true (Some 7%nat) false 3)
  = (None, [GlfwInit; GlfwCreateWindow 400 300; GlfwMakeContextCurrent 7;
            GladLoadGLLoader; Cerr FailedGLAD]).
Proof.
  apply (StartGLFW_outcomes (Platform true (Some 7%nat) false 3)); reflexivity.
Defined.

(** The effects of [StartGLFW], by outcome. *)
Lemma StartGLFW_outcomes_aux (p : platform) :
  (In GlfwTerminate (snd (StartGLFW p)) <-> init_ok p = true /\ created p = None) /\
  (forall window : nat,
     fst (StartGLFW p) = Some window ->
     snd (StartGLFW p)
       = [GlfwInit; GlfwCreateWindow 400 300; GlfwMakeContextCurrent window;
          GladLoadGLLoader]).
Proof.
  destruct p as [i c g n]. unfold StartGLFW. cbn [init_ok created glad_ok].
  destruct i; cbn [negb]; [destruct c as [w|]; [destruct g; cbn [negb]|]|];
    cbn [fst snd];
    (split;
     [ cbn [In]; intuition (discriminate || congruence)
     | intros window; congruence ]).
Qed.

Section MainFacts.

Variables SS TS G : float.

Lemma loop_effects_length window n : forall s,
  length (loop_effects SS TS G window n s) = (5 * n)%nat.
Proof.
  induction n as [|n IH]; intros s; [reflexivity|].
  cbn [loop_effects]. rewrite length_app, IH. cbn [frame_effects length]. lia.
Qed.

Lemma loop_effects_no_terminate window n : forall s,
  ~ In GlfwTerminate (loop_effects SS TS G window n s).
Proof.
  induction n as [|n IH]; intros s; [intros []|].
  cbn [loop_effects]. rewrite in_app_iff. intros [H|H]; [|exact (IH _ H)].
  cbn in H. intuition discriminate.
Qed.

(** X17.  [main] returns -1 exactly when [StartGLFW] fails, and then it has
    run no frame: the bodies are untouched and nothing happens after the
    effects of [StartGLFW], so that [glfwTerminate] has been called only if
    it was the window that could not be created.  Otherwise it returns 0
    after as many frames as the window was shown, five effects per frame,
    and its last effect is the only call of [glfwTerminate]. *)
Theorem main_outcomes (p : platform) (os : list Object) :
  (fst (StartGLFW p) = None ->
   main SS TS G p os
     = (-1, Sim os Lit.zero, Cout Greeting :: snd (StartGLFW p)) /\
   (In GlfwTerminate (snd (main SS TS G p os)) <->
    init_ok p = true /\ created p = None)) /\
  (forall window : nat,
     fst (StartGLFW p) = Some window ->
     main SS TS G p os
       = (0, frames SS TS G (frames_shown p) (Sim os Lit.zero),
          Cout Greeting :: snd (StartGLFW p) ++ [GlClearColor]
          ++ loop_effects SS TS G window (frames_shown p) (Sim os Lit.zero)
          ++ [GlfwTerminate]) /\
     length (snd (main SS TS G p os)) = (7 + 5 * frames_shown p)%nat /\
     last (snd (main SS TS G p os)) = Some GlfwTerminate /\
     ~ In GlfwTerminate (removelast (snd (main SS TS G p os)))).
Proof.
  pose proof (StartGLFW_outcomes_aux p) as Haux.
  split.
  - intros Hnone. unfold main. destruct (StartGLFW p) as [[window|] es] eqn:Hp;
      [discriminate|]. cbn [fst snd] in *. split; [reflexivity|].
    rewrite <- (proj1 Haux). cbn. intuition discriminate.
  - intros window Hsome. unfold main.
    destruct (StartGLFW p) as [[window'|] es] eqn:Hp; [|discriminate].
    cbn [fst snd] in *. injection Hsome as ->.
    destruct Haux as (_ & Hes). specialize (Hes window eq_refl). subst es.
    split_and!.
    + reflexivity.
    + cbn [length app]. rewrite !length_app, loop_effects_length. cbn [length]. lia.
    + rewrite !app_comm_cons, !app_assoc. apply last_snoc.
    + rewrite !app_comm_cons, !app_assoc, removelast_last.
      cbn [app]. intros [H|H]; [discriminate|].
      repeat (destruct H as [H|H]; [discriminate|]).
      apply (loop_effects_no_terminate _ _ _ H).
Qed.

End MainFacts.

Lemma main_outcomes_witness :
  main EarthMoon.SPACE_SCALE EarthMoon.TIME_SCALE EarthMoon.G
    (Platform true (Some 7%nat) false 3) EarthMoon.objs
  = (-1, Sim EarthMoon.objs Lit.zero,
     Cout Greeting :: snd (StartGLFW (Platform true (Some 7%nat) false 3))).
Proof.
  apply (main_outcomes EarthMoon.SPACE_SCALE EarthMoon.TIME_SCALE EarthMoon.G
           (Platform true (Some 7%nat) false 3) EarthMoon.objs).
  reflexivity.
Defined.

Lemma accelerate_schedule_witness :
  0%nat <> 1%nat /\ (0 < length EarthMoon.objs)%nat /\ (1 < length EarthMoon.objs)%nat.
Proof.
  destruct (accelerate_schedule EarthMoon.SPACE_SCALE EarthMoon.TIME_SCALE EarthMoon.G
              EarthMoon.objs) as (_ & _ & H).
  apply (H 0%nat 1%nat). vm_compute. apply list_elem_of_here.
Defined.

Lemma force_loop_writes_own_velocity_witness :
  objs (force_loop EarthMoon.SPACE_SCALE EarthMoon.TIME_SCALE EarthMoon.G 1
          (World EarthMoon.objs [])) !! 0%nat
  = objs (World EarthMoon.objs []) !! 0%nat.
Proof.
  destruct (force_loop_writes_own_velocity EarthMoon.SPACE_SCALE EarthMoon.TIME_SCALE
              EarthMoon.G 1 (World EarthMoon.objs [])) as (H & _).
  apply (H 0%nat). lia.
Defined.
